(** * marketing/generator.py: a shallow embedding and its specification

    The script renders Jinja2 templates against a YAML product file.  This
    development embeds the functions of [generator.py] one by one and proves
    the statements of the specification about them.

    Conventions of the embedding:
    - a Python [str] is a [string]; each character stands for one code point
      (code points below 256);
    - a Python [dict] is an insertion-ordered association list with unique
      keys ([dict_get], [dict_set]);
    - [dict] objects live in a store and are referred to by location, because
      [set_deep_value] mutates them in place;
    - an exception is the [Raise] branch of [result];
    - a [pathlib.Path] is the list of its components, and the file system is a
      finite map from paths to nodes. *)

From Stdlib Require Import ZArith Ascii String List Bool Lia DecimalString.
From stdpp Require Import base option list strings gmap sorting.

Set Warnings "-register-all".

Open Scope Z_scope.

(* ===================================================================== *)
(** * Python strings *)
(* ===================================================================== *)

Module Py.

(** [c in s] for a single character. *)
Fixpoint contains (c : ascii) (s : string) : bool :=
  match s with
  | EmptyString => false
  | String a s' => if Ascii.eqb a c then true else contains c s'
  end.

(** [s.partition(c)] without the separator: the text before the first [c]
    and the text after it, or [None] when [c] does not occur. *)
Fixpoint split_once (c : ascii) (s : string) : option (string * string) :=
  match s with
  | EmptyString => None
  | String a s' =>
      if Ascii.eqb a c then Some (EmptyString, s')
      else match split_once c s' with
           | Some (l, r) => Some (String a l, r)
           | None => None
           end
  end.

(** [s.split(c)]: never empty, [""] splits to [[""]]. *)
Fixpoint split (c : ascii) (s : string) : list string :=
  match s with
  | EmptyString => [EmptyString]
  | String a s' =>
      if Ascii.eqb a c then EmptyString :: split c s'
      else match split c s' with
           | [] => [String a EmptyString]
           | w :: ws => String a w :: ws
           end
  end.

(** [str.isspace] on one character: the white space of [str.strip()]. *)
Definition isspace (c : ascii) : bool :=
  let n := nat_of_ascii c in
  ((9 <=? n) && (n <=? 13) || (28 <=? n) && (n <=? 32)
   || (n =? 133) || (n =? 160))%nat.

(** [str.isdigit] on one character: the decimal digits and the superscript
    digits one, two and three. *)
Definition isdigit_char (c : ascii) : bool :=
  let n := nat_of_ascii c in
  ((48 <=? n) && (n <=? 57) || (n =? 178) || (n =? 179) || (n =? 185))%nat.

Fixpoint all_chars (p : ascii -> bool) (s : string) : bool :=
  match s with
  | EmptyString => true
  | String a s' => p a && all_chars p s'
  end.

(** [s.isdigit()]: false on the empty string. *)
Definition isdigit (s : string) : bool :=
  match s with
  | EmptyString => false
  | _ => all_chars isdigit_char s
  end.

Fixpoint lstrip (s : string) : string :=
  match s with
  | EmptyString => EmptyString
  | String a s' => if isspace a then lstrip s' else s
  end.

Fixpoint rstrip (s : string) : string :=
  match s with
  | EmptyString => EmptyString
  | String a s' =>
      match rstrip s' with
      | EmptyString => if isspace a then EmptyString else String a EmptyString
      | r => String a r
      end
  end.

(** The first, and the last, character is white space. *)
Definition starts_with_space (s : string) : bool :=
  match s with
  | EmptyString => false
  | String a _ => isspace a
  end.

Fixpoint ends_with_space (s : string) : bool :=
  match s with
  | EmptyString => false
  | String a EmptyString => isspace a
  | String _ s' => ends_with_space s'
  end.

(** [s.strip()] *)
Definition strip (s : string) : string := rstrip (lstrip s).

(** [s[:n]] *)
Definition take (n : nat) (s : string) : string := String.substring 0 n s.

(** [s[n:]] *)
Fixpoint drop (n : nat) (s : string) : string :=
  match n, s with
  | O, _ => s
  | S n', String _ s' => drop n' s'
  | S _, EmptyString => EmptyString
  end.

(** [s.rfind(c)]: the index of the last [c], [None] for -1. *)
Fixpoint rfind (c : ascii) (s : string) : option nat :=
  match s with
  | EmptyString => None
  | String a s' =>
      match rfind c s' with
      | Some i => Some (S i)
      | None => if Ascii.eqb a c then Some O else None
      end
  end.

(** [s.endswith(t)] *)
Definition endswith (t s : string) : bool :=
  String.eqb (drop (String.length s - String.length t) s) t
  && (String.length t <=? String.length s)%nat.

(** The line feed. *)
Definition newline : string := String (ascii_of_nat 10) EmptyString.

(** [str(n)] for an integer. *)
Definition str_of_int (n : Z) : string := NilZero.string_of_int (Z.to_int n).

End Py.

(* ===================================================================== *)
(** * Values, dictionaries and exceptions *)
(* ===================================================================== *)

(** The scalars [yaml.safe_load] builds, and the override strings. *)
Inductive scalar :=
  | SNone
  | SBool (b : bool)
  | SInt (n : Z)
  | SStr (s : string)
  | SDate (year month day : Z)
  | SDateTime (year month day hour minute second : Z).

(** A location names one [dict] object of the store. *)
Definition loc := nat.

(** A Python value: a scalar, a list (never mutated by the script), or a
    reference to a [dict] object. *)
Inductive val :=
  | VScalar (s : scalar)
  | VSeq (items : list val)
  | VRef (l : loc).

(** A [dict] with string keys, in insertion order. *)
Definition dict (V : Type) := list (string * V).

Section Dict.
Context {V : Type}.

  (** [d.get(k)] *)
Fixpoint dict_get (d : dict V) (k : string) : option V :=
    match d with
    | [] => None
    | (k', v) :: d' => if String.eqb k' k then Some v else dict_get d' k
    end.

  (** [d[k] = v]: an existing key keeps its position, a new key goes last. *)
Fixpoint dict_set (d : dict V) (k : string) (v : V) : dict V :=
    match d with
    | [] => [(k, v)]
    | (k', v') :: d' =>
        if String.eqb k' k then (k', v) :: d' else (k', v') :: dict_set d' k v
    end.

  (** [d.update(e)], which is also what [{**d, **e}] does to a copy of [d]. *)
Definition dict_update (d e : dict V) : dict V :=
    fold_left (fun acc kv => dict_set acc (fst kv) (snd kv)) e d.

  (** [dict(pairs)] *)
Definition dict_of_pairs (pairs : list (string * V)) : dict V :=
    dict_update [] pairs.

Definition keys (d : dict V) : list string := map fst d.

(** The value written last for a key in a list of pairs. *)
Fixpoint assoc_last (l : list (string * V)) (k : string) : option V :=
  match l with
  | [] => None
  | (k', v) :: l' =>
      match assoc_last l' k with
      | Some v' => Some v'
      | None => if String.eqb k' k then Some v else None
      end
  end.
End Dict.

Inductive exn :=
  | TypeError
  | ValueError
  | FileExistsError
  | FileNotFoundError
  | IsADirectoryError
  | NotADirectoryError
  | ParseError
  | RenderError.

Inductive result (A : Type) :=
  | Ok (a : A)
  | Raise (e : exn).
Arguments Ok {A} a.
Arguments Raise {A} e.

Definition bind {A B} (r : result A) (k : A -> result B) : result B :=
  match r with
  | Ok a => k a
  | Raise e => Raise e
  end.

Notation "'let*' x ':=' r 'in' k" := (bind r (fun x => k))
  (at level 10, x pattern, r at level 100, k at level 200).

(* ===================================================================== *)
(** * The template filter [year] *)
(* ===================================================================== *)

(** [to_year]: the body never raises, so the [try]/[except] around it has
    nothing to catch and the function is total. *)
Definition to_year (value : val) : string :=
  match value with
  | VScalar (SDate y _ _) => Py.str_of_int y
  | VScalar (SDateTime y _ _ _ _ _) => Py.str_of_int y
  | VScalar (SStr s) =>
      if (4 <=? String.length s)%nat && Py.isdigit (Py.take 4 s)
      then Py.take 4 s
      else ""
  | _ => ""
  end.

(** [value.year] when [value] is a [date] or a [datetime]. *)
Definition date_year (value : val) : option Z :=
  match value with
  | VScalar (SDate y _ _) => Some y
  | VScalar (SDateTime y _ _ _ _ _) => Some y
  | _ => None
  end.

(** A [date] or [datetime] object of year [y]; the year of such an object
    lies between [MINYEAR] and [MAXYEAR]. *)
Definition is_date (value : val) (y : Z) : Prop :=
  date_year value = Some y /\ 1 <= y <= 9999.

(** The strings on which [to_year] answers with their first four
    characters. *)
Definition starts_with_year (value : val) : bool :=
  match value with
  | VScalar (SStr s) =>
      (4 <=? String.length s)%nat && Py.isdigit (Py.take 4 s)
  | _ => false
  end.

(* ===================================================================== *)
(** * The store of [dict] objects and the override applier *)
(* ===================================================================== *)

Abbreviation store := (list (dict val)).

(** The object at a location. *)
Definition obj (st : store) (l : loc) : dict val := default [] (st !! l).

(** [{}]: a new object, at the first unused location. *)
Definition alloc (st : store) (d : dict val) : store * loc :=
  (st ++ [d], List.length st).

(** [current[key] = v] for the object at [l]. *)
Definition setitem (st : store) (l : loc) (key : string) (v : val) : store :=
  <[l := dict_set (obj st l) key v]> st.

(** The loop of [set_deep_value] over [parts[:-1]].  [current] is a dict
    from the second round on; a first [current] that is not a dict makes
    the membership test, the subscript or the assignment raise TypeError. *)
Fixpoint descend (st : store) (current : val) (keys : list string)
  : result (store * val) :=
  match keys with
  | [] => Ok (st, current)
  | key :: rest =>
      match current with
      | VRef l =>
          match dict_get (obj st l) key with
          | Some (VRef l') => descend st (VRef l') rest
          | _ =>
              let (st1, l') := alloc st [] in
              descend (setitem st1 l key (VRef l')) (VRef l') rest
          end
      | _ => Raise TypeError
      end
  end.

Definition set_deep_value (st : store) (target : val)
  (dotted_path value : string) : result store :=
  let parts := Py.split "." dotted_path in
  let* (st', current) := descend st target (removelast parts) in
  match current with
  | VRef l => Ok (setitem st' l (List.last parts "") (VScalar (SStr value)))
  | _ => Raise TypeError
  end.

Fixpoint apply_overrides (st : store) (data : val) (overrides : list string)
  : result store :=
  match overrides with
  | [] => Ok st
  | item :: rest =>
      if negb (Py.contains "=" item) then apply_overrides st data rest
      else
        match Py.split_once "=" item with
        | Some (path, value) =>
            let* st' := set_deep_value st data (Py.strip path) value in
            apply_overrides st' data rest
        | None => Raise ValueError
        end
  end.

(** One store extends another: no object is lost and every object has
    kept its keys. *)
Definition store_le (st st' : store) : Prop :=
  (List.length st <= List.length st')%nat /\
  forall x k, In k (keys (obj st x)) -> In k (keys (obj st' x)).

(** ** Configuration trees *)

(** The configuration as the specification sees it: a tree of scalars,
    sequences and mappings, with no sharing. *)
Inductive tree :=
  | TScalar (s : scalar)
  | TSeq (items : list tree)
  | TMap (entries : dict tree).

Section ReprList.
Context {A B : Type} (R : A -> B -> list loc -> Prop).

  (** Elementwise representation; the footprints are concatenated. *)
Fixpoint repr_list (xs : list A) (ys : list B) (fp : list loc) : Prop :=
    match xs, ys with
    | [], [] => fp = []
    | x :: xs', y :: ys' =>
        exists f1 f2, fp = f1 ++ f2 /\ R x y f1 /\ repr_list xs' ys' f2
    | _, _ => False
    end.
End ReprList.

(** [repr st t v fp]: in store [st] the value [v] is the root of a copy of
    the tree [t] whose [dict] objects are exactly the locations [fp]. *)
Fixpoint repr (st : store) (t : tree) (v : val) (fp : list loc) {struct t}
  : Prop :=
  match t with
  | TScalar s => v = VScalar s /\ fp = []
  | TSeq ts =>
      exists vs, v = VSeq vs /\ repr_list (repr st) ts vs fp
  | TMap es =>
      exists l fp', v = VRef l /\ fp = l :: fp' /\ (l < List.length st)%nat /\
        repr_list (fun kt kv f => fst kt = fst kv /\ repr st (snd kt) (snd kv) f)
          es (obj st l) fp'
  end.

(** The value [v] holds the tree [t]: a representation without sharing. *)
Definition tree_at (st : store) (v : val) (t : tree) : Prop :=
  exists fp, repr st t v fp /\ NoDup fp.

(** ** The override applier on trees, after the specification *)

(** An override entry: the key path before the first [=], white space
    around it removed and split at the dots, and the text after it. *)
Definition parse_override (item : string) : option (list string * string) :=
  match Py.split_once "=" item with
  | Some (path, value) => Some (Py.split "." (Py.strip path), value)
  | None => None
  end.

(** The mapping to descend into at key [k]: the one that is there, or an
    empty one when the key is missing or holds something else. *)
Definition child_map (m : dict tree) (k : string) : dict tree :=
  match dict_get m k with
  | Some (TMap c) => c
  | _ => []
  end.

(** Walk the segments but the last, replacing what is missing or not a
    mapping by an empty mapping; set the last segment to the string. *)
Fixpoint spec_set_path (segs : list string) (value : string) (m : dict tree)
  : dict tree :=
  match segs with
  | [] => m
  | [k] => dict_set m k (TScalar (SStr value))
  | k :: rest => dict_set m k (TMap (spec_set_path rest value (child_map m k)))
  end.

Definition spec_apply_overrides (m : dict tree) (overrides : list string)
  : dict tree :=
  fold_left (fun m item =>
               match parse_override item with
               | Some (segs, value) => spec_set_path segs value m
               | None => m
               end) overrides m.

(** The subtree of a configuration at a key path. *)
Fixpoint tree_lookup (q : list string) (t : tree) : option tree :=
  match q with
  | [] => Some t
  | k :: q' =>
      match t with
      | TMap es =>
          match dict_get es k with
          | Some c => tree_lookup q' c
          | None => None
          end
      | _ => None
      end
  end.

(** Two key paths part ways: neither runs along the other. *)
Definition diverge (p q : list string) : Prop :=
  ~ p `prefix_of` q /\ ~ q `prefix_of` p.

(** The key paths of the override entries that are applied. *)
Definition applied_paths (overrides : list string) : list (list string) :=
  omap (fun item => fst <$> parse_override item) overrides.

(* ===================================================================== *)
(** * The loader *)
(* ===================================================================== *)

(** Truth value of a Python value. *)
Definition truthy (st : store) (v : val) : bool :=
  match v with
  | VScalar SNone => false
  | VScalar (SBool b) => b
  | VScalar (SInt n) => negb (n =? 0)
  | VScalar (SStr s) => negb (String.eqb s "")
  | VScalar (SDate _ _ _) => true
  | VScalar (SDateTime _ _ _ _ _ _) => true
  | VSeq items => match items with [] => false | _ => true end
  | VRef l => match obj st l with [] => false | _ => true end
  end.

(** [parsed or {}] *)
Definition or_empty_dict (st : store) (parsed : val) : store * val :=
  if truthy st parsed then (st, parsed)
  else let (st', l) := alloc st [] in (st', VRef l).

(** A value is a mapping when it refers to a [dict]. *)
Definition is_mapping (v : val) : bool :=
  match v with
  | VRef _ => true
  | _ => false
  end.

(* ===================================================================== *)
(** * Paths and the file system *)
(* ===================================================================== *)

(** A [pathlib.Path], by its components; [[]] is the current directory. *)
Abbreviation path := (list string).

Inductive node :=
  | File (content : string)
  | Dir.

(** The file system: what is at each path.  The directory of every entry
    is an entry too ([fs_wf]). *)
Abbreviation filesystem := (gmap (list string) node).

Definition fs_wf (fs : filesystem) : Prop :=
  forall p a, is_Some (fs !! (p ++ [a])) -> p <> [] -> fs !! p = Some Dir.

(** A check of [fs_wf] that computes. *)
Definition fs_wf_check (fs : filesystem) : bool :=
  forallb (fun pn : list string * node =>
             match removelast (fst pn) with
             | [] => true
             | d => match fs !! d with
                    | Some Dir => true
                    | _ => false
                    end
             end) (map_to_list fs).

(** [p.exists()] *)
Definition path_exists (fs : filesystem) (p : path) : bool :=
  match p with
  | [] => true
  | _ => bool_decide (is_Some (fs !! p))
  end.

(** [p.is_file()] *)
Definition is_file (n : node) : bool :=
  match n with
  | File _ => true
  | Dir => false
  end.

(** [str(p)] *)
Definition path_str (p : path) : string :=
  match p with
  | [] => "."
  | _ => String.concat "/" p
  end.

(** [p.name] *)
Definition name (p : path) : string := List.last p "".

(** [p.suffix], from the name: the text from the last dot on, unless that
    dot is the first or the last character. *)
Definition suffix_of_name (n : string) : string :=
  match Py.rfind "." n with
  | Some i =>
      if (0 <? i)%nat && (i <? String.length n - 1)%nat then Py.drop i n
      else ""
  | None => ""
  end.

Definition suffix (p : path) : string := suffix_of_name (name p).

(** [p.with_suffix("")]: a path without a name raises ValueError. *)
Definition with_suffix_empty (p : path) : result path :=
  match name p with
  | "" => Raise ValueError
  | n =>
      Ok (removelast p ++
          [Py.take (String.length n - String.length (suffix_of_name n)) n])
  end.

(** [p.parent] *)
Definition parent (p : path) : path := removelast p.

(** [p.relative_to(t)] when [p] lies under [t]. *)
Fixpoint strip_prefix (t p : path) : option path :=
  match t, p with
  | [], _ => Some p
  | a :: t', b :: p' => if String.eqb a b then strip_prefix t' p' else None
  | _ :: _, [] => None
  end.

(** The order of [sorted] on paths: component by component, a proper
    prefix first. *)
Fixpoint path_compare (p q : path) : comparison :=
  match p, q with
  | [], [] => Eq
  | [], _ :: _ => Lt
  | _ :: _, [] => Gt
  | a :: p', b :: q' =>
      match String.compare a b with
      | Eq => path_compare p' q'
      | c => c
      end
  end.

Definition path_le (p q : path) : Prop := path_compare p q <> Gt.

#[global] Instance path_le_dec p q : Decision (path_le p q).
Proof. unfold path_le. destruct (path_compare p q); [left|left|right]; congruence. Defined.

(** What lies under a directory, by relative path: the view of a
    directory tree that [glob] walks and the template loader reads. *)
Definition subtree (fs : filesystem) (t : path) : filesystem :=
  list_to_map
    (omap (fun pn => (fun r => (r, snd pn)) <$> strip_prefix t (fst pn))
       (map_to_list fs)).

(** Nothing is removed and nothing changes its kind: a directory is still
    a directory, a file is still a file (its content may differ). *)
Definition fs_le (fs fs' : filesystem) : Prop :=
  forall q,
    match fs !! q with
    | Some Dir => fs' !! q = Some Dir
    | Some (File _) => exists c, fs' !! q = Some (File c)
    | None => True
    end.

(** [ensure_dir]: [mkdir(parents=True, exist_ok=True)].  The components are
    created from the top; a file in the way raises. *)
Fixpoint mkdir_from (fs : filesystem) (done todo : path) : result filesystem :=
  match todo with
  | [] => Ok fs
  | a :: todo' =>
      let q := done ++ [a] in
      match fs !! q with
      | Some Dir => mkdir_from fs q todo'
      | Some (File _) =>
          Raise (match todo' with
                 | [] => FileExistsError
                 | _ => NotADirectoryError
                 end)
      | None => mkdir_from (<[q := Dir]> fs) q todo'
      end
  end.

Definition ensure_dir (fs : filesystem) (p : path) : result filesystem :=
  mkdir_from fs [] p.

(** [p.write_text(content)] *)
Definition write_text (fs : filesystem) (p : path) (content : string)
  : result filesystem :=
  match p with
  | [] => Raise IsADirectoryError
  | _ =>
      match fs !! p with
      | Some Dir => Raise IsADirectoryError
      | _ =>
          match parent p with
          | [] => Ok (<[p := File content]> fs)
          | d =>
              match fs !! d with
              | Some Dir => Ok (<[p := File content]> fs)
              | Some (File _) => Raise NotADirectoryError
              | None => Raise FileNotFoundError
              end
          end
      end
  end.

(* ===================================================================== *)
(** * Discovery and target paths *)
(* ===================================================================== *)

(** [templates_dir.glob("**/*")]: everything below the directory, the
    directory itself left out. *)
Definition glob_all (fs : filesystem) (templates_dir : path)
  : list (path * node) :=
  omap (fun rn => match fst rn with
                  | [] => None
                  | r => Some (templates_dir ++ r, snd rn)
                  end)
       (map_to_list (subtree fs templates_dir)).

Definition is_template (pn : path * node) : bool :=
  is_file (snd pn) && String.eqb (suffix (fst pn)) ".j2".

Definition discover_templates (fs : filesystem) (templates_dir : path)
  : list path :=
  merge_sort path_le (filter is_template (glob_all fs templates_dir)).*1.

Definition target_path_for (template_rel_path out_dir : path) : result path :=
  let* stripped := with_suffix_empty template_rel_path in
  Ok (out_dir ++ stripped).

(** A template below the template root: a relative path that is not empty
    and whose name has the marker suffix. *)
Definition template_under (templates_dir tpl_path : path) : Prop :=
  exists rel, rel <> [] /\ tpl_path = templates_dir ++ rel /\
              suffix_of_name (name rel) = ".j2".

(** The output path after the specification: the template's path relative
    to the template root, its last component without the three characters
    of the marker suffix, under the output root. *)
Definition remove_marker (rel : path) : path :=
  parent rel ++ [Py.take (String.length (name rel) - 3) (name rel)].

Definition output_path (templates_dir out_dir tpl_path : path) : path :=
  out_dir ++ remove_marker (drop (List.length templates_dir) tpl_path).

(* ===================================================================== *)
(** * Rendering and the driver *)
(* ===================================================================== *)

(** What the script can change: the file system and the two streams. *)
Record world := World {
  w_fs : filesystem;
  w_out : list string;
  w_err : list string
}.

(** The parsed command line. *)
Record arguments := Arguments {
  arg_product : path;
  arg_templates : path;
  arg_out : path;
  arg_overrides : list string
}.

Definition print (w : world) (line : string) : world :=
  World (w_fs w) (w_out w ++ [line]) (w_err w).

Definition print_err (w : world) (line : string) : world :=
  World (w_fs w) (w_out w) (w_err w ++ [line]).

Section Pipeline.
  (** [yaml.safe_load] on the text of a document: the objects it builds and
      the value of the document. *)
Variable safe_load : string -> result (store * val).

  (** Loading the template of that name in the environment of [build_env]
      and rendering it with the context as its variables; the loader reads
      the files under the template root. *)
Variable render : filesystem -> path -> store -> dict val -> result string.

Definition load_yaml (fs : filesystem) (p : path) : result (store * val) :=
    match fs !! p with
    | Some (File content) =>
        let* (st, parsed) := safe_load content in
        Ok (or_empty_dict st parsed)
    | Some Dir => Raise IsADirectoryError
    | None => Raise FileNotFoundError
    end.

  (** The text written for a rendered template. *)
Definition file_text (output : string) : string :=
    Py.strip output +:+ Py.newline.

  (** One round of the loop of [render_all]. *)
Definition render_one (st : store) (context : dict val)
    (templates_dir out_dir : path) (w : world) (tpl_path : path)
    : result world :=
    let* rel_path := match strip_prefix templates_dir tpl_path with
                     | Some r => Ok r
                     | None => Raise ValueError
                     end in
    let* output := render (subtree (w_fs w) templates_dir) rel_path st context in
    let* out_path := target_path_for rel_path out_dir in
    let* fs1 := ensure_dir (w_fs w) (parent out_path) in
    let* fs2 := write_text fs1 out_path (file_text output) in
    Ok (print (World fs2 (w_out w) (w_err w)) ("Wrote " +:+ path_str out_path)).

Fixpoint render_loop (st : store) (context : dict val)
    (templates_dir out_dir : path) (w : world) (tpls : list path)
    : result world :=
    match tpls with
    | [] => Ok w
    | tpl_path :: rest =>
        let* w' := render_one st context templates_dir out_dir w tpl_path in
        render_loop st context templates_dir out_dir w' rest
    end.

Definition render_all (w : world) (st : store) (product_dict : val)
    (templates_dir out_dir : path) : result world :=
    let* fs0 := ensure_dir (w_fs w) out_dir in
    let* context := match product_dict with
                    | VRef l => Ok (obj st l)
                    | _ => Raise TypeError
                    end in
    render_loop st context templates_dir out_dir
      (World fs0 (w_out w) (w_err w)) (discover_templates fs0 templates_dir).

Definition main (w : world) (args : arguments) : result (world * Z) :=
    let product_path := arg_product args in
    let templates_dir := arg_templates args in
    let out_dir := arg_out args in
    if negb (path_exists (w_fs w) product_path) then
      Ok (print_err w ("ERROR: product file not found: "
                       +:+ path_str product_path), 2)
    else if negb (path_exists (w_fs w) templates_dir) then
      Ok (print_err w ("ERROR: templates dir not found: "
                       +:+ path_str templates_dir), 2)
    else
      let* (st, data) := load_yaml (w_fs w) product_path in
      let* st' := apply_overrides st data (arg_overrides args) in
      let* w' := render_all w st' data templates_dir out_dir in
      Ok (w', 0).
End Pipeline.

(* ===================================================================== *)
(** * A loader and a renderer for the examples *)
(* ===================================================================== *)

(** A loader that knows one document. *)
Definition example_safe_load (text : string) : result (store * val) :=
  if String.eqb text "name: Widget"
  then Ok ([[("name", VScalar (SStr "Widget"))]], VRef 0%nat)
  else Raise ParseError.

(** A renderer that returns the text of the template between white space. *)
Definition example_render (templates : filesystem) (rel : path) (st : store)
  (context : dict val) : result string :=
  match templates !! rel with
  | Some (File text) => Ok ("  " +:+ text +:+ Py.newline +:+ Py.newline)
  | _ => Raise RenderError
  end.

Definition example_fs : filesystem :=
  {[ ["product.yaml"] := File "name: Widget";
     ["t"] := Dir; ["t"; "a"] := Dir;
     ["t"; "a"; "b.html.j2"] := File "<p>{{ name }}</p>";
     ["t"; "c.txt.j2"] := File "{{ name }}" ]}.

(* ===================================================================== *)
(** * URLs: the functions of [urllib.parse] that [with_utm] calls *)
(* ===================================================================== *)

Module Url.

(** The named tuple that [urlparse] returns. *)
Record ParseResult := mkParse {
  scheme : string;
  netloc : string;
  path : string;
  params : string;
  query : string;
  fragment : string
}.

(** [parsed._replace(query=q)] *)
Definition set_query (p : ParseResult) (q : string) : ParseResult :=
  mkParse (scheme p) (netloc p) (path p) (params p) q (fragment p).

Definition uses_netloc : list string :=
  [""; "ftp"; "http"; "gopher"; "nntp"; "telnet"; "imap"; "wais"; "file";
   "mms"; "https"; "shttp"; "snews"; "prospero"; "rtsp"; "rtspu"; "rsync";
   "svn"; "svn+ssh"; "sftp"; "nfs"; "git"; "git+ssh"; "ws"; "wss"].

Definition uses_params : list string :=
  [""; "ftp"; "hdl"; "prospero"; "http"; "imap"; "https"; "shttp"; "rtsp";
   "rtspu"; "sip"; "sips"; "mms"; "sftp"; "tel"].

Definition mem (s : string) (l : list string) : bool :=
  existsb (String.eqb s) l.

Definition code (c : ascii) : nat := nat_of_ascii c.

Definition is_c0_or_space (c : ascii) : bool := (code c <=? 32)%nat.

Definition is_unsafe (c : ascii) : bool :=
  ((code c =? 9) || (code c =? 10) || (code c =? 13))%nat.

Definition is_upper (c : ascii) : bool := ((65 <=? code c) && (code c <=? 90))%nat.
Definition is_lower (c : ascii) : bool := ((97 <=? code c) && (code c <=? 122))%nat.
Definition is_alpha (c : ascii) : bool := is_upper c || is_lower c.
Definition is_digit (c : ascii) : bool := ((48 <=? code c) && (code c <=? 57))%nat.

(** [c in scheme_chars] *)
Definition is_scheme_char (c : ascii) : bool :=
  is_alpha c || is_digit c
  || ((code c =? 43) || (code c =? 45) || (code c =? 46))%nat.

Definition lower_char (c : ascii) : ascii :=
  if is_upper c then ascii_of_nat (code c + 32) else c.

Fixpoint map_chars (f : ascii -> ascii) (s : string) : string :=
  match s with
  | EmptyString => EmptyString
  | String a s' => String (f a) (map_chars f s')
  end.

Fixpoint filter_chars (keep : ascii -> bool) (s : string) : string :=
  match s with
  | EmptyString => EmptyString
  | String a s' =>
      if keep a then String a (filter_chars keep s') else filter_chars keep s'
  end.

(** [url.lstrip(_WHATWG_C0_CONTROL_OR_SPACE)] *)
Fixpoint lstrip_c0 (s : string) : string :=
  match s with
  | EmptyString => EmptyString
  | String a s' => if is_c0_or_space a then lstrip_c0 s' else s
  end.

(** The scheme, when the text before the first colon is one, and the rest. *)
Definition split_scheme (url : string) : string * string :=
  match Py.split_once ":" url with
  | Some (String a pre, rest) =>
      if is_alpha a && Py.all_chars is_scheme_char (String a pre)
      then (map_chars lower_char (String a pre), rest)
      else ("", url)
  | _ => ("", url)
  end.

Definition is_delim (c : ascii) : bool :=
  ((code c =? 47) || (code c =? 63) || (code c =? 35))%nat.

(** [_splitnetloc(url, 2)] on the text after the two slashes. *)
Fixpoint span_netloc (s : string) : string * string :=
  match s with
  | EmptyString => (EmptyString, EmptyString)
  | String a s' =>
      if is_delim a then (EmptyString, s)
      else let (n, r) := span_netloc s' in (String a n, r)
  end.

Definition is_ascii (s : string) : bool :=
  Py.all_chars (fun c => (code c <? 128)%nat) s.

(** [url.split(c, 1)] as a pair, the second part empty without [c]. *)
Definition cut (c : ascii) (s : string) : string * string :=
  match Py.split_once c s with
  | Some (l, r) => (l, r)
  | None => (s, "")
  end.

(** [_splitparams] *)
Definition splitparams (url : string) : string * string :=
  let (head, tail) :=
    match Py.rfind "/" url with
    | Some i => (Py.take (S i) url, Py.drop (S i) url)
    | None => ("", url)
    end in
  match Py.split_once ";" tail with
  | Some (a, b) => (head +:+ a, b)
  | None => (url, "")
  end.

Definition nonempty (s : string) : bool := negb (String.eqb s "").

Definition urlunsplit (scheme netloc url query fragment : string) : string :=
  let url :=
    if nonempty netloc
       || (nonempty scheme && mem scheme uses_netloc
           && negb (String.eqb (Py.take 2 url) "//"))
    then "//" +:+ netloc +:+
         (if nonempty url && negb (String.eqb (Py.take 1 url) "/")
          then "/" +:+ url else url)
    else url in
  let url := if nonempty scheme then scheme +:+ ":" +:+ url else url in
  let url := if nonempty query then url +:+ "?" +:+ query else url in
  if nonempty fragment then url +:+ "#" +:+ fragment else url.

Definition urlunparse (p : ParseResult) : string :=
  urlunsplit (scheme p) (netloc p)
    (if nonempty (params p) then path p +:+ ";" +:+ params p else path p)
    (query p) (fragment p).

Definition replace_plus (s : string) : string :=
  map_chars (fun c => if (code c =? 43)%nat then " "%char else c) s.

Section Library.
(** The checks of a host in brackets and of a host that is not ASCII, and
    the percent codec, are the library's. *)
Variable bracketed_netloc_ok : string -> bool.
Variable nfkc_ok : string -> bool.
Variable unquote : string -> string.
Variable quote_plus : string -> string.

Definition split_netloc (url : string) : result (string * string) :=
  match url with
  | String "/" (String "/" rest) =>
      let (netloc, url') := span_netloc rest in
      let opens := Py.contains "[" netloc in
      let closes := Py.contains "]" netloc in
      if (opens && negb closes) || (closes && negb opens) then Raise ValueError
      else if opens && closes && negb (bracketed_netloc_ok netloc)
      then Raise ValueError
      else Ok (netloc, url')
  | _ => Ok ("", url)
  end.

Definition checknetloc (netloc : string) : result unit :=
  if String.eqb netloc "" || is_ascii netloc || nfkc_ok netloc then Ok tt
  else Raise ValueError.

Definition urlsplit (url : string) : result ParseResult :=
  let url := filter_chars (fun c => negb (is_unsafe c)) (lstrip_c0 url) in
  let (scheme, url) := split_scheme url in
  let* (netloc, url) := split_netloc url in
  let (url, fragment) := cut "#" url in
  let (url, query) := cut "?" url in
  let* _ := checknetloc netloc in
  Ok (mkParse scheme netloc url "" query fragment).

Definition urlparse (url : string) : result ParseResult :=
  let* r := urlsplit url in
  if mem (scheme r) uses_params && Py.contains ";" (path r) then
    let (url, params) := splitparams (path r) in
    Ok (mkParse (scheme r) (netloc r) url params (query r) (fragment r))
  else Ok r.

(** [parse_qsl(qs)]: the fields with a name, an [=] and a value. *)
Definition parse_field (name_value : string) : option (string * string) :=
  match Py.split_once "=" name_value with
  | Some (n, String a v) =>
      Some (unquote (replace_plus n), unquote (replace_plus (String a v)))
  | _ => None
  end.

Definition parse_qsl (qs : string) : list (string * string) :=
  match qs with
  | EmptyString => []
  | _ => omap parse_field (Py.split "&" qs)
  end.

(** [urlencode(d, doseq=True)] for a dict of strings. *)
Definition urlencode (d : dict string) : string :=
  String.concat "&"
    (map (fun kv => quote_plus (fst kv) +:+ "=" +:+ quote_plus (snd kv)) d).

(** The inner dict of [with_utm] and its comprehension. *)
Definition utm_items (utm : dict string) : list (string * option string) :=
  [("utm_source", dict_get utm "source");
   ("utm_medium", dict_get utm "medium");
   ("utm_campaign", dict_get utm "campaign");
   ("utm_content", dict_get utm "content")].

Definition truthy_item (kv : string * option string) : option (string * string) :=
  match snd kv with
  | Some (String a v) => Some (fst kv, String a v)
  | _ => None
  end.

Definition utm_params (utm : dict string) : dict string :=
  omap truthy_item (utm_items utm).

(** The dict display with the three unpackings. *)
Definition merged_params (parsed_query : string) (utm extra : dict string)
  : dict string :=
  let query := dict_of_pairs (parse_qsl parsed_query) in
  dict_update (dict_update (dict_update [] query) (utm_params utm)) extra.

Definition with_utm (url : string) (utm extra : option (dict string))
  : result string :=
  match url with
  | EmptyString => Ok url
  | _ =>
      let utm := default [] utm in
      let extra := default [] extra in
      let* parsed := urlparse url in
      let merged := merged_params (query parsed) utm extra in
      let new_query := urlencode merged in
      Ok (urlunparse (set_query parsed new_query))
  end.
End Library.

(** ** The merged parameters, after the specification *)

(** A component counts when it is there and not empty. *)
Definition nonblank (o : option string) : option string :=
  match o with
  | Some (String a v) => Some (String a v)
  | _ => None
  end.

(** The four components under their new names. *)
Definition spec_utm (utm : dict string) (k : string) : option string :=
  if String.eqb k "utm_source" then nonblank (dict_get utm "source")
  else if String.eqb k "utm_medium" then nonblank (dict_get utm "medium")
  else if String.eqb k "utm_campaign" then nonblank (dict_get utm "campaign")
  else if String.eqb k "utm_content" then nonblank (dict_get utm "content")
  else None.

(** The value of a parameter after the overlays: [extra] first, then the
    components, then the last value in the query. *)
Definition spec_param (fields : list (string * string))
  (utm extra : dict string) (k : string) : option string :=
  match assoc_last extra k with
  | Some v => Some v
  | None =>
      match spec_utm utm k with
      | Some v => Some v
      | None => assoc_last fields k
      end
  end.

(** ** A percent codec for the examples *)

Definition hex_digit (n : nat) : ascii :=
  if (n <? 10)%nat then ascii_of_nat (48 + n) else ascii_of_nat (55 + n).

Definition percent (b : nat) : string :=
  String "%" (String (hex_digit (b / 16)) (String (hex_digit (b mod 16)) "")).

Definition always_safe (c : ascii) : bool :=
  is_alpha c || is_digit c
  || ((code c =? 95) || (code c =? 46) || (code c =? 45) || (code c =? 126))%nat.

(** [quote_plus]: the UTF-8 bytes of the text, the safe ones as they are, a
    space as a plus sign. *)
Fixpoint quote_plus (s : string) : string :=
  match s with
  | EmptyString => EmptyString
  | String c s' =>
      (if always_safe c then String c ""
       else if (code c =? 32)%nat then "+"
       else if (code c <? 128)%nat then percent (code c)
       else if (code c <? 192)%nat then percent 194 +:+ percent (code c)
       else percent 195 +:+ percent (code c - 64))
      +:+ quote_plus s'
  end.

Definition hex_value (c : ascii) : option nat :=
  if is_digit c then Some (code c - 48)%nat
  else if ((65 <=? code c) && (code c <=? 70))%nat then Some (code c - 55)%nat
  else if ((97 <=? code c) && (code c <=? 102))%nat then Some (code c - 87)%nat
  else None.

(** [unquote] on text whose escapes are ASCII characters; other escapes are
    left as they are. *)
Fixpoint unquote (s : string) : string :=
  match s with
  | String "%" (String h (String l s' as t) as u) =>
      match hex_value h, hex_value l with
      | Some a, Some b =>
          if (a <? 8)%nat then String (ascii_of_nat (16 * a + b)) (unquote s')
          else String "%" (String h (unquote t))
      | _, _ => String "%" (unquote u)
      end
  | String c s' => String c (unquote s')
  | EmptyString => EmptyString
  end.

End Url.

(* ===================================================================== *)
(** * Proofs: the template filter [year] *)
(* ===================================================================== *)

Lemma str_of_int_range (P : string -> bool) (lo hi : Z) :
  forallb (fun i => P (Py.str_of_int (lo + Z.of_nat i)))
    (seq 0 (Z.to_nat (hi - lo))) = true ->
  forall y, lo <= y < hi -> P (Py.str_of_int y) = true.
Proof.
  intros Hall y Hy.
  rewrite forallb_forall in Hall.
  specialize (Hall (Z.to_nat (y - lo))).
  rewrite Z2Nat.id in Hall by lia.
  replace (lo + (y - lo)) with y in Hall by lia.
  apply Hall, in_seq. lia.
Qed.

Lemma str_of_int_four_digits (y : Z) :
  1000 <= y <= 9999 -> String.length (Py.str_of_int y) = 4%nat.
Proof.
  intros Hy. apply Nat.eqb_eq.
  apply (str_of_int_range (fun s => (String.length s =? 4)%nat) 1000 10000);
    [vm_compute; reflexivity | lia].
Qed.

Lemma str_of_int_short (y : Z) :
  1 <= y < 1000 -> (String.length (Py.str_of_int y) < 4)%nat.
Proof.
  intros Hy. apply Nat.ltb_lt.
  apply (str_of_int_range (fun s => (String.length s <? 4)%nat) 1 1000);
    [vm_compute; reflexivity | lia].
Qed.

(** C4, as the specification states it, fails: the year of a date before
    the year 1000 is printed without padding, so it is not a 4-digit
    string. *)
Lemma to_year_date_not_four_digits :
  is_date (VScalar (SDate 999 12 31)) 999 /\
  to_year (VScalar (SDate 999 12 31)) = "999" /\
  String.length (to_year (VScalar (SDate 999 12 31))) <> 4%nat.
Proof.
  split; [|split].
  - split; [reflexivity | lia].
  - reflexivity.
  - vm_compute. discriminate.
Qed.

(** C4 (amended): [year] is a total function (it never raises) and returns:
    for a date or datetime, its year in decimal without padding, which has
    four characters exactly when the year is 1000 or later; for a string of
    at least four characters whose first four are digits, these four
    characters; for every other value the empty string.  In particular
    [year("2024-05-01") = "2024"] and [year(42) = ""]. *)
Theorem to_year_spec :
  (forall value y, is_date value y ->
     to_year value = Py.str_of_int y /\
     (String.length (to_year value) = 4%nat <-> 1000 <= y)) /\
  (forall s, (4 <= String.length s)%nat -> Py.isdigit (Py.take 4 s) = true ->
     to_year (VScalar (SStr s)) = Py.take 4 s) /\
  (forall value, date_year value = None -> starts_with_year value = false ->
     to_year value = "") /\
  to_year (VScalar (SStr "2024-05-01")) = "2024" /\
  to_year (VScalar (SInt 42)) = "".
Proof.
  repeat split.
  - destruct H as [Hd _].
    destruct value as [[]| |]; simpl in Hd; try discriminate;
      injection Hd as ->; reflexivity.
  - intros Hlen. destruct H as [Hd Hy].
    assert (Heq : to_year value = Py.str_of_int y).
    { destruct value as [[]| |]; simpl in Hd; try discriminate;
        injection Hd as ->; reflexivity. }
    rewrite Heq in Hlen.
    destruct (Z_lt_le_dec y 1000) as [Hlt|]; [|assumption].
    pose proof (str_of_int_short y ltac:(lia)). lia.
  - intros Hy. destruct H as [Hd Hr].
    assert (Heq : to_year value = Py.str_of_int y).
    { destruct value as [[]| |]; simpl in Hd; try discriminate;
        injection Hd as ->; reflexivity. }
    rewrite Heq. apply str_of_int_four_digits. lia.
  - intros s Hlen Hdig. unfold to_year.
    apply Nat.leb_le in Hlen. rewrite Hlen, Hdig. reflexivity.
  - intros value Hd Hs.
    destruct value as [[]| |]; simpl in *; try discriminate; try reflexivity.
    rewrite Hs. reflexivity.
Qed.

Lemma to_year_spec_witness :
  to_year (VScalar (SDateTime 2024 5 1 12 0 0)) = "2024" /\
  to_year (VScalar (SStr "1999 was a year")) = "1999" /\
  to_year (VSeq []) = "".
Proof.
  destruct to_year_spec as (Hdate & Hstr & Hother & _).
  split; [|split].
  - destruct (Hdate (VScalar (SDateTime 2024 5 1 12 0 0)) 2024) as [-> _].
    + split; [reflexivity | lia].
    + reflexivity.
  - rewrite (Hstr "1999 was a year"); [reflexivity | simpl; lia | reflexivity].
  - apply Hother; reflexivity.
Defined.

(* ===================================================================== *)
(** * Proofs: dictionaries *)
(* ===================================================================== *)

Section DictFacts.
Context {V : Type}.
Implicit Types (d : dict V) (k : string) (v : V).

Lemma dict_get_set_eq d k v : dict_get (dict_set d k v) k = Some v.
Proof.
    induction d as [|[k' v'] d IH]; simpl.
    - rewrite String.eqb_refl. reflexivity.
    - destruct (String.eqb k' k) eqn:E; simpl; rewrite E; auto.
Qed.

Lemma dict_get_set_ne d k k' v :
    k <> k' -> dict_get (dict_set d k v) k' = dict_get d k'.
Proof.
    intros Hne. induction d as [|[k0 v0] d IH]; simpl.
    - destruct (String.eqb k k') eqn:E; [|reflexivity].
      apply String.eqb_eq in E. contradiction.
    - destruct (String.eqb k0 k) eqn:E; simpl.
      + apply String.eqb_eq in E. subst k0.
        destruct (String.eqb k k') eqn:E'; [|reflexivity].
        apply String.eqb_eq in E'. contradiction.
      + rewrite IH. reflexivity.
Qed.

  (** Setting a key replaces one entry where it stands, or adds a last
      entry. *)
Lemma dict_set_split d k :
    exists d1 d2, (forall v, dict_set d k v = d1 ++ (k, v) :: d2) /\
      ((dict_get d k = None /\ d = d1 /\ d2 = []) \/
       (exists v0, dict_get d k = Some v0 /\ d = d1 ++ (k, v0) :: d2)).
Proof.
    induction d as [|[k' v'] d IH]; simpl.
    - exists [], []. split; [reflexivity | left; auto].
    - destruct (String.eqb k' k) eqn:E.
      + apply String.eqb_eq in E. subst k'.
        exists [], d. split; [reflexivity|]. right. exists v'. auto.
      + destruct IH as (d1 & d2 & Hset & Hget).
        exists ((k', v') :: d1), d2. split.
        * intros v. rewrite Hset. reflexivity.
        * destruct Hget as [(Hn & -> & ->) | (v0 & Hs & ->)].
          -- left. auto.
          -- right. exists v0. auto.
Qed.
End DictFacts.

(* ===================================================================== *)
(** * Proofs: trees in the store *)
(* ===================================================================== *)

Section TreeInd.
Variable P : tree -> Prop.
Hypothesis Hscalar : forall s, P (TScalar s).
Hypothesis Hseq : forall ts, Forall P ts -> P (TSeq ts).
Hypothesis Hmap : forall es, Forall (fun kt => P (snd kt)) es -> P (TMap es).

Lemma tree_ind' (t : tree) : P t.
Proof.
    revert t. fix IH 1. intros [s|ts|es].
    - apply Hscalar.
    - apply Hseq. induction ts as [|t ts IHts]; constructor; [apply IH | exact IHts].
    - apply Hmap. induction es as [|[k t] es IHes]; constructor;
        [apply IH | exact IHes].
Qed.
End TreeInd.

Section ReprListFacts.
Context {A B : Type}.
Implicit Types (R : A -> B -> list loc -> Prop).

Lemma repr_list_impl R R' xs ys fp :
    Forall (fun x => forall y f, (forall l, l ∈ f -> l ∈ fp) ->
                                 R x y f -> R' x y f) xs ->
    repr_list R xs ys fp -> repr_list R' xs ys fp.
Proof.
    revert ys fp. induction xs as [|x xs IH]; intros [|y ys] fp Hall H;
      simpl in *; try done.
    destruct H as (f1 & f2 & -> & Hx & Hxs).
    apply Forall_cons in Hall as [Hhd Htl].
    exists f1, f2. split; [done|]. split.
    - apply Hhd; [|done]. intros l Hl. apply elem_of_app. auto.
    - apply IH; [|done].
      eapply Forall_impl; [exact Htl|]. simpl. intros x' Hx' y' f Hsub.
      apply Hx'. intros l Hl. apply elem_of_app. auto.
Qed.

Lemma repr_list_app R xs1 ys1 f1 xs2 ys2 f2 :
    repr_list R xs1 ys1 f1 -> repr_list R xs2 ys2 f2 ->
    repr_list R (xs1 ++ xs2) (ys1 ++ ys2) (f1 ++ f2).
Proof.
    revert ys1 f1. induction xs1 as [|x xs1 IH]; intros [|y ys1] f1 H1 H2;
      simpl in *; try done.
    - subst f1. done.
    - destruct H1 as (g1 & g2 & -> & Hx & Hxs).
      exists g1, (g2 ++ f2). rewrite <- app_assoc. auto.
Qed.

Lemma repr_list_cons R x xs y ys f1 f2 :
    R x y f1 -> repr_list R xs ys f2 ->
    repr_list R (x :: xs) (y :: ys) (f1 ++ f2).
Proof. intros. simpl. eauto. Qed.
End ReprListFacts.

(** The representation of one entry of a mapping. *)
Definition repr_entry (st : store) (kt : string * tree) (kv : string * val)
  (f : list loc) : Prop :=
  fst kt = fst kv /\ repr st (snd kt) (snd kv) f.

Lemma repr_map_unfold st es v fp :
  repr st (TMap es) v fp <->
  exists l fp', v = VRef l /\ fp = l :: fp' /\ (l < List.length st)%nat /\
    repr_list (repr_entry st) es (obj st l) fp'.
Proof. reflexivity. Qed.

(** A representation reads the store only at its footprint. *)
Lemma repr_frame st st' t :
  forall v fp,
    repr st t v fp ->
    (List.length st <= List.length st')%nat ->
    (forall l, l ∈ fp -> st' !! l = st !! l) ->
    repr st' t v fp.
Proof.
  induction t as [s|ts IH|es IH] using tree_ind'; intros v fp H Hlen Hsame.
  - exact H.
  - destruct H as (vs & -> & H). exists vs. split; [done|].
    eapply repr_list_impl; [|exact H].
    eapply Forall_impl; [exact IH|]. simpl.
    intros t Ht y f Hsub Hr. apply Ht; auto.
  - destruct H as (l & fp' & -> & -> & Hl & H).
    exists l, fp'. repeat split; [lia|].
    assert (Hobj : obj st' l = obj st l).
    { unfold obj. rewrite Hsame; [done | apply elem_of_cons; auto]. }
    rewrite Hobj.
    eapply repr_list_impl; [|exact H].
    eapply Forall_impl; [exact IH|]. simpl.
    intros kt Ht kv f Hsub [Hk Hr]. split; [done|].
    apply Ht; auto. intros l' Hl'. apply Hsame, elem_of_cons. auto.
Qed.

Lemma repr_entries_frame st st' es d fp :
  repr_list (repr_entry st) es d fp ->
  (List.length st <= List.length st')%nat ->
  (forall l, l ∈ fp -> st' !! l = st !! l) ->
  repr_list (repr_entry st') es d fp.
Proof.
  intros H Hlen Hsame. eapply repr_list_impl; [|exact H].
  apply Forall_forall. intros kt _ kv f Hsub [Hk Hr]. split; [done|].
  eapply repr_frame; eauto.
Qed.

(** Every location of a footprint is allocated. *)
Lemma repr_bound st t :
  forall v fp l, repr st t v fp -> l ∈ fp -> (l < List.length st)%nat.
Proof.
  induction t as [s|ts IH|es IH] using tree_ind'; intros v fp l H Hin.
  - destruct H as [_ ->]. by apply elem_of_nil in Hin.
  - destruct H as (vs & -> & H).
    revert vs fp H Hin. induction IH as [|t ts Ht _ IHts];
      intros [|v vs] fp H Hin; simpl in H; try done.
    + subst fp. by apply elem_of_nil in Hin.
    + destruct H as (f1 & f2 & -> & Hr & Hrs).
      apply elem_of_app in Hin as [Hin|Hin]; eauto.
  - destruct H as (l0 & fp' & -> & -> & Hl & H).
    apply elem_of_cons in Hin as [->|Hin]; [done|].
    generalize dependent fp'. generalize (obj st l0).
    induction IH as [|kt es Ht _ IHes]; intros [|kv d] fp' H Hin;
      simpl in H; try done.
    + subst fp'. by apply elem_of_nil in Hin.
    + destruct H as (f1 & f2 & -> & [_ Hr] & Hrs).
      apply elem_of_app in Hin as [Hin|Hin]; eauto.
Qed.

Lemma repr_entries_bound st es d fp l :
  repr_list (repr_entry st) es d fp -> l ∈ fp -> (l < List.length st)%nat.
Proof.
  revert d fp. induction es as [|kt es IH]; intros [|kv d] fp H Hin;
    simpl in H; try done.
  - subst fp. by apply elem_of_nil in Hin.
  - destruct H as (f1 & f2 & -> & [_ Hr] & Hrs).
    apply elem_of_app in Hin as [Hin|Hin]; [|eauto].
    eapply repr_bound; eauto.
Qed.

Lemma repr_entries_split st es d fp k :
  repr_list (repr_entry st) es d fp ->
  exists es1 es2 d1 d2 fp1 f0 fp2,
    fp = fp1 ++ f0 ++ fp2 /\
    repr_list (repr_entry st) es1 d1 fp1 /\
    repr_list (repr_entry st) es2 d2 fp2 /\
    (forall t, dict_set es k t = es1 ++ (k, t) :: es2) /\
    (forall v, dict_set d k v = d1 ++ (k, v) :: d2) /\
    ((dict_get d k = None /\ dict_get es k = None /\ f0 = []) \/
     (exists t0 v0, dict_get d k = Some v0 /\ dict_get es k = Some t0 /\
                    repr st t0 v0 f0)).
Proof.
  revert d fp. induction es as [|[k' t] es IH]; intros [|[k'' v] d] fp H;
    simpl in H; try done.
  - subst fp. exists [], [], [], [], [], [], []. simpl. repeat split; auto.
  - destruct H as (f1 & f2 & -> & [Hk Hr] & Hrs). simpl in Hk, Hr. subst k''.
    simpl. destruct (String.eqb k' k) eqn:E.
    + apply String.eqb_eq in E. subst k'.
      exists [], es, [], d, [], f1, f2. simpl. repeat split; auto.
      right. exists t, v. auto.
    + destruct (IH d f2 Hrs)
        as (es1 & es2 & d1 & d2 & fp1 & f0 & fp2 & -> & H1 & H2 & Hes & Hd & Hc).
      exists ((k', t) :: es1), es2, ((k', v) :: d1), d2, (f1 ++ fp1), f0, fp2.
      split; [by rewrite <- app_assoc|]. split.
      { apply repr_list_cons; [split; done | done]. }
      split; [done|]. split; [intros t'; by rewrite Hes|].
      split; [intros v'; by rewrite Hd|]. exact Hc.
Qed.

Lemma NoDup_swap_middle (bound : nat) (l : loc) (fp1 f0 f0' fp2 : list loc) :
  NoDup (l :: fp1 ++ f0 ++ fp2) -> NoDup f0' ->
  (forall x, x ∈ f0' -> x ∈ f0 \/ (bound <= x)%nat) ->
  (forall x, x ∈ l :: fp1 ++ fp2 -> (x < bound)%nat) ->
  NoDup (l :: fp1 ++ f0' ++ fp2).
Proof.
  intros Hnd Hnd' Hsub Hb.
  apply NoDup_cons in Hnd as [Hl Hnd].
  apply NoDup_app in Hnd as (Hn1 & Hd1 & Hnd).
  apply NoDup_app in Hnd as (Hn0 & Hd0 & Hn2).
  assert (Hout : forall x, x ∈ f0' -> x ∉ l :: fp1 ++ fp2).
  { intros x Hx Hin. destruct (Hsub x Hx) as [Hx0|Hx0].
    - apply elem_of_cons in Hin as [->|Hin].
      + apply Hl. rewrite !elem_of_app. auto.
      + apply elem_of_app in Hin as [Hin|Hin].
        * apply (Hd1 x Hin). rewrite elem_of_app. auto.
        * apply (Hd0 x Hx0 Hin).
    - specialize (Hb x Hin). lia. }
  apply NoDup_cons. split.
  - intros Hin. rewrite !elem_of_app in Hin. destruct Hin as [Hin|[Hin|Hin]].
    + apply Hl. rewrite !elem_of_app. auto.
    + apply (Hout l Hin). apply elem_of_cons. auto.
    + apply Hl. rewrite !elem_of_app. auto.
  - apply NoDup_app. split; [done|]. split.
    + intros x Hx Hin. apply elem_of_app in Hin as [Hin|Hin].
      * apply (Hout x Hin). rewrite elem_of_cons, elem_of_app. auto.
      * apply (Hd1 x Hx). rewrite elem_of_app. auto.
    + apply NoDup_app. split; [done|]. split; [|done].
      intros x Hx Hin. apply (Hout x Hx).
      rewrite elem_of_cons, elem_of_app. auto.
Qed.

Lemma obj_setitem_eq st l k v :
  (l < List.length st)%nat -> obj (setitem st l k v) l = dict_set (obj st l) k v.
Proof. intros Hl. unfold obj at 1, setitem. by rewrite list_lookup_insert_eq. Qed.

Lemma lookup_setitem_ne st l k v (x : loc) :
  x <> l -> setitem st l k v !! x = st !! x.
Proof. intros Hne. unfold setitem. by rewrite list_lookup_insert_ne. Qed.

Lemma length_setitem st l k v : List.length (setitem st l k v) = List.length st.
Proof. unfold setitem. apply length_insert. Qed.

Lemma repr_ref_is_map st t l f :
  repr st t (VRef l) f -> exists c, t = TMap c.
Proof.
  destruct t as [s|ts|c]; simpl.
  - intros [? _]. done.
  - intros (vs & ? & _). done.
  - eauto.
Qed.

Lemma repr_map_is_ref st c v f :
  repr st (TMap c) v f -> exists l, v = VRef l.
Proof. intros (l & fp' & -> & _). eauto. Qed.

(** The walk of [set_deep_value] on a store that holds a tree: it ends in a
    dict, and after the last assignment the store holds the tree that
    [spec_set_path] computes.  Only objects of the tree and new objects are
    written. *)
Lemma set_deep_repr parts :
  parts <> [] ->
  forall st l es fp value,
    repr st (TMap es) (VRef l) fp -> NoDup fp ->
    exists st1 l1,
      descend st (VRef l) (removelast parts) = Ok (st1, VRef l1) /\
      let st' := setitem st1 l1 (List.last parts "") (VScalar (SStr value)) in
      exists fp',
        repr st' (TMap (spec_set_path parts value es)) (VRef l) fp' /\
        NoDup fp' /\
        (List.length st <= List.length st')%nat /\
        (forall x, x ∈ fp' -> x ∈ fp \/ (List.length st <= x)%nat) /\
        (forall x : loc, (x < List.length st)%nat -> x ∉ fp -> st' !! x = st !! x).
Proof.
  induction parts as [|k parts IH]; [done|]. intros _ st l es fp value Hr Hnd.
  apply repr_map_unfold in Hr as (l0 & fp0 & [= <-] & -> & Hl & Hes).
  destruct (repr_entries_split st es (obj st l) fp0 k Hes)
    as (es1 & es2 & d1 & d2 & fp1 & f0 & fp2 & -> & H1 & H2 & Hset & Hdset & Hc).
  assert (Hnl1 : forall x, x ∈ fp1 -> x <> l).
  { intros x Hx ->. apply NoDup_cons in Hnd as [Hnd _]. apply Hnd.
    rewrite elem_of_app. auto. }
  assert (Hnl2 : forall x, x ∈ fp2 -> x <> l).
  { intros x Hx ->. apply NoDup_cons in Hnd as [Hnd _]. apply Hnd.
    rewrite !elem_of_app. auto. }
  assert (Hb : forall x, x ∈ l :: fp1 ++ fp2 -> (x < List.length st)%nat).
  { intros x Hx. apply elem_of_cons in Hx as [->|Hx]; [done|].
    apply elem_of_app in Hx as [Hx|Hx];
      [exact (repr_entries_bound _ _ _ _ _ H1 Hx)
      |exact (repr_entries_bound _ _ _ _ _ H2 Hx)]. }
  destruct parts as [|k2 rest].
  - (* the last segment: [current[parts[-1]] = value] *)
    simpl removelast. simpl List.last. simpl descend.
    exists st, l. split; [done|]. simpl.
    set (st' := setitem st l k (VScalar (SStr value))).
    assert (Hframe : forall x : loc, x <> l -> st' !! x = st !! x).
    { intros x Hx. by apply lookup_setitem_ne. }
    assert (Hlen : List.length st' = List.length st) by apply length_setitem.
    exists (l :: fp1 ++ [] ++ fp2). split; [|split; [|split; [|split]]].
    + apply repr_map_unfold. exists l, (fp1 ++ [] ++ fp2).
      split; [done|]. split; [done|]. split; [lia|].
      assert (Hobj : obj st' l = d1 ++ (k, VScalar (SStr value)) :: d2).
      { unfold st'. rewrite obj_setitem_eq by done. apply Hdset. }
      rewrite Hobj, Hset.
      apply repr_list_app.
      * eapply repr_entries_frame; [exact H1 | lia | auto].
      * apply repr_list_cons; [split; simpl; done|].
        eapply repr_entries_frame; [exact H2 | lia | auto].
    + eapply (NoDup_swap_middle (List.length st)); eauto.
      * constructor.
      * intros x Hx. by apply elem_of_nil in Hx.
    + lia.
    + intros x Hx. left. revert Hx.
      rewrite !elem_of_cons, !elem_of_app, elem_of_nil. tauto.
    + intros x Hx Hnin. apply Hframe. intros ->. apply Hnin.
      apply elem_of_cons. auto.
  - (* an inner segment *)
    assert (Hne : k2 :: rest <> []) by done.
    change (removelast (k :: k2 :: rest)) with (k :: removelast (k2 :: rest)).
    change (List.last (k :: k2 :: rest) "") with (List.last (k2 :: rest) "").
    change (spec_set_path (k :: k2 :: rest) value es) with
      (dict_set es k (TMap (spec_set_path (k2 :: rest) value (child_map es k)))).
    rewrite Hset.
    pose (l' := List.length st).
    set (st2 := setitem (st ++ [[]]) l k (VRef l')).
    assert (Halloc :
      descend st (VRef l) (k :: removelast (k2 :: rest))
        = descend st2 (VRef l') (removelast (k2 :: rest)) ->
      child_map es k = [] ->
      exists st1 l1,
        descend st (VRef l) (k :: removelast (k2 :: rest)) = Ok (st1, VRef l1) /\
        let st' := setitem st1 l1 (List.last (k2 :: rest) "")
                     (VScalar (SStr value)) in
        exists fp',
          repr st' (TMap (es1 ++ (k, TMap (spec_set_path (k2 :: rest) value
             (child_map es k))) :: es2)) (VRef l) fp' /\
          NoDup fp' /\
          (List.length st <= List.length st')%nat /\
          (forall x, x ∈ fp' -> x ∈ l :: fp1 ++ f0 ++ fp2 \/
                                (List.length st <= x)%nat) /\
          (forall x : loc, (x < List.length st)%nat ->
             x ∉ l :: fp1 ++ f0 ++ fp2 -> st' !! x = st !! x)).
    { intros -> ->.
      assert (Hlen2 : List.length st2 = S (List.length st)).
      { unfold st2. rewrite length_setitem, length_app. simpl. lia. }
      assert (Hst2 : forall x : loc, (x < List.length st)%nat -> x <> l ->
                                     st2 !! x = st !! x).
      { intros x Hx Hxl. unfold st2. rewrite lookup_setitem_ne by done.
        by apply lookup_app_l. }
      assert (Hchild : repr st2 (TMap []) (VRef l') [l']).
      { apply repr_map_unfold. exists l', []. split; [done|]. split; [done|].
        split; [unfold l'; lia|].
        unfold obj, st2. rewrite lookup_setitem_ne by (unfold l'; lia).
        rewrite lookup_app_r by (unfold l'; lia).
        replace (l' - List.length st)%nat with 0%nat by (unfold l'; lia).
        simpl. done. }
      destruct (IH Hne st2 l' [] [l'] value Hchild ltac:(apply NoDup_singleton))
        as (st1 & l1 & Hdesc & fp' & Hr' & Hnd' & Hlen' & Hsub' & Hframe').
      exists st1, l1. split; [exact Hdesc|]. cbv zeta in *.
      set (st' := setitem st1 l1 (List.last (k2 :: rest) "") (VScalar (SStr value))) in *.
      assert (Hframe : forall x : loc, (x < List.length st)%nat -> x <> l ->
                                       st' !! x = st !! x).
      { intros x Hx Hxl. rewrite Hframe'; [by apply Hst2 | lia |].
        rewrite list_elem_of_singleton. unfold l'. lia. }
      assert (Hnew : forall x, x ∈ fp' -> (List.length st <= x)%nat).
      { intros x Hx. destruct (Hsub' x Hx) as [Hx'|Hx'].
        - apply list_elem_of_singleton in Hx'. unfold l' in Hx'. lia.
        - lia. }
      exists (l :: fp1 ++ fp' ++ fp2). split; [|split; [|split; [|split]]].
      * apply repr_map_unfold. exists l, (fp1 ++ fp' ++ fp2).
        split; [done|]. split; [done|]. split; [lia|].
        assert (Hobj : obj st' l = d1 ++ (k, VRef l') :: d2).
        { assert (Hobj2 : obj st2 l = d1 ++ (k, VRef l') :: d2).
          { unfold st2. rewrite obj_setitem_eq by (rewrite length_app; lia).
            rewrite <- Hdset. f_equal. unfold obj.
            by rewrite lookup_app_l. }
          rewrite <- Hobj2. unfold obj. rewrite Hframe'; [done | lia |].
          rewrite list_elem_of_singleton. unfold l'. lia. }
        rewrite Hobj. apply repr_list_app.
        -- eapply repr_entries_frame; [exact H1 | lia |].
           intros x Hx. apply Hframe; [|auto].
           exact (repr_entries_bound _ _ _ _ _ H1 Hx).
        -- apply repr_list_cons; [split; simpl; done|].
           eapply repr_entries_frame; [exact H2 | lia |].
           intros x Hx. apply Hframe; [|auto].
           exact (repr_entries_bound _ _ _ _ _ H2 Hx).
      * eapply (NoDup_swap_middle (List.length st)); eauto.
      * lia.
      * intros x Hx. revert Hx.
        rewrite !elem_of_cons, !elem_of_app.
        intros [->|[Hx|[Hx|Hx]]]; auto.
      * intros x Hx Hnin. apply Hframe; [done|]. intros ->. apply Hnin.
        apply elem_of_cons. auto. }
    destruct Hc as [(Hdn & Hen & ->) | (t0 & v0 & Hdg & Heg & Hr0)];
      [|destruct v0 as [s|vs|l0]].
    + apply Halloc.
      * simpl descend. rewrite Hdn. reflexivity.
      * unfold child_map. rewrite Hen. reflexivity.
    + apply Halloc.
      * simpl descend. rewrite Hdg. reflexivity.
      * unfold child_map. rewrite Heg. destruct t0 as [?|?|c]; try reflexivity.
        destruct (repr_map_is_ref _ _ _ _ Hr0) as [? [=]].
    + apply Halloc.
      * simpl descend. rewrite Hdg. reflexivity.
      * unfold child_map. rewrite Heg. destruct t0 as [?|?|c]; try reflexivity.
        destruct (repr_map_is_ref _ _ _ _ Hr0) as [? [=]].
    + (* the key holds a dict: descend into it *)
      clear Halloc. rename l0 into l'0.
      destruct (repr_ref_is_map _ _ _ _ Hr0) as [c ->].
      simpl descend. rewrite Hdg. unfold child_map. rewrite Heg.
      assert (Hndf0 : NoDup f0).
      { apply NoDup_cons in Hnd as [_ Hnd].
        apply NoDup_app in Hnd as (_ & _ & Hnd).
        by apply NoDup_app in Hnd as (Hnd & _ & _). }
      destruct (IH Hne st l'0 c f0 value Hr0 Hndf0)
        as (st1 & l1 & Hdesc & fp' & Hr' & Hnd' & Hlen' & Hsub' & Hframe').
      exists st1, l1. split; [exact Hdesc|]. cbv zeta in *.
      set (st' := setitem st1 l1 (List.last (k2 :: rest) "") (VScalar (SStr value))) in *.
      assert (Hout : forall x, x ∈ l :: fp1 ++ fp2 -> x ∉ f0).
      { intros x Hx Hx0.
        apply NoDup_cons in Hnd as [Hl' Hnd].
        apply NoDup_app in Hnd as (_ & Hd1 & Hnd).
        apply NoDup_app in Hnd as (_ & Hd0 & _).
        apply elem_of_cons in Hx as [->|Hx].
        - apply Hl'. rewrite !elem_of_app. auto.
        - apply elem_of_app in Hx as [Hx|Hx].
          + apply (Hd1 x Hx). rewrite elem_of_app. auto.
          + apply (Hd0 x Hx0 Hx). }
      assert (Hframe : forall x, x ∈ l :: fp1 ++ fp2 -> st' !! x = st !! x).
      { intros x Hx. apply Hframe'; auto. }
      exists (l :: fp1 ++ fp' ++ fp2). split; [|split; [|split; [|split]]].
      * apply repr_map_unfold. exists l, (fp1 ++ fp' ++ fp2).
        split; [done|]. split; [done|]. split; [lia|].
        assert (Hobj : obj st' l = d1 ++ (k, VRef l'0) :: d2).
        { unfold obj. rewrite Hframe by (apply elem_of_cons; auto).
          fold (obj st l). destruct (dict_set_split (obj st l) k)
            as (e1 & e2 & Hsp & [(Hn & _)|(v0 & Hs & Heq)]).
          - rewrite Hn in Hdg. done.
          - rewrite Hs in Hdg. injection Hdg as ->.
            rewrite Heq at 1. rewrite <- Hsp. apply Hdset. }
        rewrite Hobj. apply repr_list_app.
        -- eapply repr_entries_frame; [exact H1 | lia |].
           intros x Hx. apply Hframe. rewrite elem_of_cons, elem_of_app. auto.
        -- apply repr_list_cons; [split; simpl; done|].
           eapply repr_entries_frame; [exact H2 | lia |].
           intros x Hx. apply Hframe. rewrite elem_of_cons, elem_of_app. auto.
      * eapply (NoDup_swap_middle (List.length st)); eauto.
      * lia.
      * intros x Hx. revert Hx.
        rewrite !elem_of_cons, !elem_of_app.
        intros [->|[Hx|[Hx|Hx]]]; auto.
        destruct (Hsub' x Hx); auto.
      * intros x Hx Hnin. apply Hframe'; [done|]. intros Hx0. apply Hnin.
        rewrite elem_of_cons, !elem_of_app. auto.
Qed.


(* ===================================================================== *)
(** * Proofs: the override applier *)
(* ===================================================================== *)

Lemma split_nonempty c s : Py.split c s <> [].
Proof.
  destruct s as [|a s]; simpl; [done|].
  destruct (Ascii.eqb a c); [done|]. destruct (Py.split c s); done.
Qed.

Lemma split_once_contains c s :
  Py.split_once c s = None <-> Py.contains c s = false.
Proof.
  induction s as [|a s IH]; simpl; [done|].
  destruct (Ascii.eqb a c); [split; done|].
  destruct (Py.split_once c s) as [[l r]|]; [|tauto].
  split; [done|]. intros H. apply IH in H. done.
Qed.

Lemma tree_at_map_ref st v es :
  tree_at st v (TMap es) -> exists l, v = VRef l.
Proof. intros (fp & Hr & _). eapply repr_map_is_ref; eauto. Qed.

(** [set_deep_value] on a store that holds a tree. *)
Lemma set_deep_value_tree st data es dotted_path value :
  tree_at st data (TMap es) ->
  exists st',
    set_deep_value st data dotted_path value = Ok st' /\
    tree_at st' data
      (TMap (spec_set_path (Py.split "." dotted_path) value es)).
Proof.
  intros Ht. destruct (tree_at_map_ref _ _ _ Ht) as [l ->].
  destruct Ht as (fp & Hr & Hnd).
  destruct (set_deep_repr _ (split_nonempty "." dotted_path) st l es fp value
              Hr Hnd) as (st1 & l1 & Hdesc & fp' & Hr' & Hnd' & _).
  unfold set_deep_value. rewrite Hdesc. simpl.
  eexists. split; [reflexivity|]. exists fp'. auto.
Qed.

Lemma apply_overrides_tree overrides :
  forall st data es,
    tree_at st data (TMap es) ->
    exists st',
      apply_overrides st data overrides = Ok st' /\
      tree_at st' data (TMap (spec_apply_overrides es overrides)).
Proof.
  induction overrides as [|item rest IH]; intros st data es Ht; simpl.
  - eauto.
  - unfold spec_apply_overrides. simpl. unfold parse_override at 2.
    destruct (Py.contains "=" item) eqn:Hc; simpl.
    + destruct (Py.split_once "=" item) as [[path value]|] eqn:Hs.
      * destruct (set_deep_value_tree st data es (Py.strip path) value Ht)
          as (st1 & Hset & Ht1).
        rewrite Hset. simpl. apply IH, Ht1.
      * apply split_once_contains in Hs. congruence.
    + apply split_once_contains in Hc. rewrite Hc. apply IH, Ht.
Qed.

(** ** What [spec_set_path] does to the tree *)

Lemma spec_set_path_lookup_self segs value :
  segs <> [] ->
  forall es, tree_lookup segs (TMap (spec_set_path segs value es))
             = Some (TScalar (SStr value)).
Proof.
  induction segs as [|k segs IH]; [done|]. intros _ es.
  destruct segs as [|k2 rest].
  - simpl. rewrite dict_get_set_eq. reflexivity.
  - change (spec_set_path (k :: k2 :: rest) value es) with
      (dict_set es k (TMap (spec_set_path (k2 :: rest) value (child_map es k)))).
    cbn [tree_lookup]. rewrite dict_get_set_eq. apply IH. done.
Qed.

Lemma dict_set_set {V} (d : dict V) k v1 v2 :
  dict_set (dict_set d k v1) k v2 = dict_set d k v2.
Proof.
  induction d as [|[k' v'] d IH]; simpl.
  - rewrite String.eqb_refl. reflexivity.
  - destruct (String.eqb k' k) eqn:E; simpl; rewrite E; [done|].
    by rewrite IH.
Qed.

Lemma child_map_set es k c : child_map (dict_set es k (TMap c)) k = c.
Proof. unfold child_map. rewrite dict_get_set_eq. reflexivity. Qed.

Lemma spec_set_path_overwrite segs v1 v2 :
  forall es, spec_set_path segs v2 (spec_set_path segs v1 es)
             = spec_set_path segs v2 es.
Proof.
  induction segs as [|k segs IH]; [done|]. intros es.
  destruct segs as [|k2 rest].
  - simpl. apply dict_set_set.
  - change (spec_set_path (k :: k2 :: rest) v1 es) with
      (dict_set es k (TMap (spec_set_path (k2 :: rest) v1 (child_map es k)))).
    set (c1 := spec_set_path (k2 :: rest) v1 (child_map es k)).
    change (spec_set_path (k :: k2 :: rest) v2 (dict_set es k (TMap c1))) with
      (dict_set (dict_set es k (TMap c1)) k
         (TMap (spec_set_path (k2 :: rest) v2
                  (child_map (dict_set es k (TMap c1)) k)))).
    rewrite child_map_set, dict_set_set. unfold c1. rewrite IH. reflexivity.
Qed.

Lemma tree_lookup_child_map es k q :
  q <> [] ->
  tree_lookup q (TMap (child_map es k)) = tree_lookup (k :: q) (TMap es).
Proof.
  intros Hq. destruct q as [|k' q]; [done|]. unfold child_map. cbn [tree_lookup].
  destruct (dict_get es k) as [[s|ts|c]|]; simpl; reflexivity.
Qed.

(** A key path that parts ways with the override path keeps its subtree. *)
Lemma spec_set_path_frame segs value :
  forall es q, diverge segs q ->
    tree_lookup q (TMap (spec_set_path segs value es)) = tree_lookup q (TMap es).
Proof.
  induction segs as [|k segs IH]; intros es q [Hpq Hqp].
  - destruct Hpq. apply prefix_nil.
  - destruct q as [|k' q']; [destruct Hqp; apply prefix_nil|].
    destruct (decide (k = k')) as [<-|Hne].
    + assert (Hdiv : diverge segs q').
      { split; intros Hp; [apply Hpq | apply Hqp]; by apply prefix_cons. }
      destruct segs as [|k2 rest]; [destruct Hpq; apply prefix_cons, prefix_nil|].
      destruct q' as [|k'' q'']; [destruct Hqp; apply prefix_cons, prefix_nil|].
      change (spec_set_path (k :: k2 :: rest) value es) with
        (dict_set es k (TMap (spec_set_path (k2 :: rest) value (child_map es k)))).
      cbn [tree_lookup]. rewrite dict_get_set_eq.
      change (tree_lookup (k'' :: q'')
                (TMap (spec_set_path (k2 :: rest) value (child_map es k)))
              = tree_lookup (k :: k'' :: q'') (TMap es)).
      rewrite (IH _ _ Hdiv). by apply tree_lookup_child_map.
    + assert (Hget : forall t, dict_get (dict_set es k t) k' = dict_get es k')
        by (intros t; by apply dict_get_set_ne).
      destruct segs as [|k2 rest]; cbn [spec_set_path tree_lookup];
        rewrite Hget; reflexivity.
Qed.

Lemma spec_apply_overrides_frame overrides :
  forall es q,
    Forall (fun p => diverge p q) (applied_paths overrides) ->
    tree_lookup q (TMap (spec_apply_overrides es overrides))
    = tree_lookup q (TMap es).
Proof.
  induction overrides as [|item rest IH]; intros es q Hall; [done|].
  unfold spec_apply_overrides, applied_paths in *. simpl in *.
  destruct (parse_override item) as [[segs value]|]; simpl in Hall.
  - apply Forall_cons in Hall as [Hd Hall].
    rewrite IH by done. by apply spec_set_path_frame.
  - by apply IH.
Qed.

(** A store holds at most one tree at a value. *)
Lemma repr_unique st t :
  forall t' v fp fp', repr st t v fp -> repr st t' v fp' -> t = t'.
Proof.
  induction t as [s|ts IH|es IH] using tree_ind'; intros t' v fp fp' H H'.
  - destruct H as [-> _]. destruct t' as [s'|ts'|es']; simpl in H'.
    + destruct H' as [[= ->] _]. done.
    + destruct H' as (? & [=] & _).
    + destruct H' as (? & ? & [=] & _).
  - destruct H as (vs & -> & H). destruct t' as [s'|ts'|es']; simpl in H'.
    + destruct H' as [[=] _].
    + destruct H' as (vs' & [= <-] & H'). f_equal.
      revert ts' vs fp fp' H H'.
      induction IH as [|t ts Ht _ IHts]; intros [|t' ts'] [|v vs] fp fp' H H';
        simpl in *; try done.
      destruct H as (f1 & f2 & _ & Hr & Hrs).
      destruct H' as (f1' & f2' & _ & Hr' & Hrs').
      f_equal; eauto.
    + destruct H' as (? & ? & [=] & _).
  - destruct H as (l & fp0 & -> & _ & _ & H).
    destruct t' as [s'|ts'|es']; simpl in H'.
    + destruct H' as [[=] _].
    + destruct H' as (? & [=] & _).
    + destruct H' as (l' & fp0' & [= <-] & _ & _ & H'). f_equal.
      revert H H'. generalize (obj st l). revert es' fp0 fp0'.
      induction IH as [|[k t] es Ht _ IHes];
        intros [|[k' t'] es'] fp0 fp0' [|[k'' v] d] H H'; simpl in *; try done.
      destruct H as (f1 & f2 & _ & [Hk Hr] & Hrs).
      destruct H' as (f1' & f2' & _ & [Hk' Hr'] & Hrs').
      simpl in *. subst. f_equal; [f_equal|]; eauto.
Qed.

Lemma tree_at_unique st v t t' : tree_at st v t -> tree_at st v t' -> t = t'.
Proof. intros (fp & H & _) (fp' & H' & _). eapply repr_unique; eauto. Qed.

Lemma tree_at_empty_config : tree_at [[]] (VRef 0%nat) (TMap []).
Proof.
  exists [0%nat]. split; [|apply NoDup_singleton].
  exists 0%nat, []. repeat split. simpl. lia.
Qed.

(** C2: on a configuration tree, [apply_overrides] succeeds and leaves the
    tree that the specification describes: the entries with an [=] are
    applied in order, each by splitting its key path (the text before the
    first [=], without the surrounding white space) at the dots, walking the
    segments but the last while replacing whatever is missing or not a
    mapping by an empty mapping, and setting the last segment to the text
    after the [=] as a string.  After an entry is applied its path holds that
    string, and a later entry for the same path overwrites an earlier one.
    ["a.b.c=x"] on the empty configuration gives [{a: {b: {c: "x"}}}], and
    ["a=1"] then ["a.b=2"] gives [{a: {b: "2"}}]. *)
Theorem apply_overrides_spec :
  (forall st data es overrides,
     tree_at st data (TMap es) ->
     exists st',
       apply_overrides st data overrides = Ok st' /\
       tree_at st' data (TMap (spec_apply_overrides es overrides))) /\
  (forall segs value es,
     segs <> [] ->
     tree_lookup segs (TMap (spec_set_path segs value es))
     = Some (TScalar (SStr value))) /\
  (forall segs v1 v2 es,
     spec_set_path segs v2 (spec_set_path segs v1 es)
     = spec_set_path segs v2 es) /\
  (exists st',
     apply_overrides [[]] (VRef 0%nat) ["a.b.c=x"] = Ok st' /\
     tree_at st' (VRef 0%nat)
       (TMap [("a", TMap [("b", TMap [("c", TScalar (SStr "x"))])])])) /\
  (exists st',
     apply_overrides [[]] (VRef 0%nat) ["a=1"; "a.b=2"] = Ok st' /\
     tree_at st' (VRef 0%nat) (TMap [("a", TMap [("b", TScalar (SStr "2"))])])).
Proof.
  split; [|split; [|split; [|split]]].
  - intros st data es overrides Ht. by apply apply_overrides_tree.
  - intros segs value es Hne. by apply spec_set_path_lookup_self.
  - intros. apply spec_set_path_overwrite.
  - exact (apply_overrides_tree ["a.b.c=x"] _ _ _ tree_at_empty_config).
  - exact (apply_overrides_tree ["a=1"; "a.b=2"] _ _ _ tree_at_empty_config).
Qed.

Lemma apply_overrides_spec_witness :
  let st := [[("name", VScalar (SStr "Widget")); ("seo", VRef 1%nat)];
             [("title", VScalar (SStr "old"))]] in
  tree_at st (VRef 0%nat)
    (TMap [("name", TScalar (SStr "Widget"));
           ("seo", TMap [("title", TScalar (SStr "old"))])]) /\
  exists st',
    apply_overrides st (VRef 0%nat)
      ["seo.title=new"; "ignored"; " name.first = W "] = Ok st' /\
    tree_at st' (VRef 0%nat)
      (TMap [("name", TMap [("first", TScalar (SStr " W "))]);
             ("seo", TMap [("title", TScalar (SStr "new"))])]).
Proof.
  intros st.
  assert (Ht : tree_at st (VRef 0%nat)
    (TMap [("name", TScalar (SStr "Widget"));
           ("seo", TMap [("title", TScalar (SStr "old"))])])).
  { exists [0%nat; 1%nat]. split.
    - exists 0%nat, [1%nat]. split; [reflexivity|]. split; [reflexivity|].
      split; [simpl; lia|]. simpl.
      exists [], [1%nat]. split; [reflexivity|].
      split; [split; [reflexivity|split; reflexivity]|].
      exists [1%nat], []. split; [reflexivity|]. split; [|reflexivity].
      split; [reflexivity|]. exists 1%nat, [].
      split; [reflexivity|]. split; [reflexivity|]. split; [simpl; lia|].
      simpl. exists [], []. split; [reflexivity|].
      split; [split; [reflexivity|split; reflexivity]|reflexivity].
    - apply NoDup_cons_2; [|apply NoDup_singleton].
      intros H. apply list_elem_of_singleton in H. discriminate. }
  split; [exact Ht|].
  exact (proj1 apply_overrides_spec st (VRef 0%nat) _
           ["seo.title=new"; "ignored"; " name.first = W "] Ht).
Defined.

(** C8: an override entry without [=] is skipped.  Alone it returns the
    store as it is, whatever the configuration value is, and inside a list
    of overrides the run is the run of the list without it. *)
Theorem apply_overrides_skips_entry_without_eq st data pre item post :
  Py.contains "=" item = false ->
  apply_overrides st data [item] = Ok st /\
  apply_overrides st data (pre ++ item :: post)
  = apply_overrides st data (pre ++ post).
Proof.
  intros Hc. split.
  - simpl. rewrite Hc. reflexivity.
  - revert st. induction pre as [|item0 pre IH]; intros st; simpl.
    + rewrite Hc. reflexivity.
    + destruct (Py.contains "=" item0); simpl; [|apply IH].
      destruct (Py.split_once "=" item0) as [[path value]|]; [|reflexivity].
      destruct (set_deep_value st data (Py.strip path) value); simpl;
        [apply IH | reflexivity].
Qed.

Lemma apply_overrides_skips_entry_without_eq_witness :
  apply_overrides [[("a", VScalar (SInt 1))]] (VRef 0%nat) ["no separator"]
  = Ok [[("a", VScalar (SInt 1))]] /\
  apply_overrides [] (VSeq []) ["no separator"] = Ok [] /\
  apply_overrides [[("a", VScalar (SInt 1))]] (VRef 0%nat)
    ["a=2"; "no separator"; "b=3"]
  = Ok [[("a", VScalar (SStr "2")); ("b", VScalar (SStr "3"))]].
Proof.
  split; [|split].
  - apply (apply_overrides_skips_entry_without_eq _ _ [] "no separator" []).
    reflexivity.
  - apply (apply_overrides_skips_entry_without_eq _ _ [] "no separator" []).
    reflexivity.
  - etrans.
    + exact (proj2 (apply_overrides_skips_entry_without_eq
               [[("a", VScalar (SInt 1))]] (VRef 0%nat)
               ["a=2"] "no separator" ["b=3"] eq_refl)).
    + reflexivity.
Defined.

(** C10, as stated, fails: the key [c] under [a.b] is not a segment of the
    override path [a.b], yet applying ["a.b=2"] discards it with the old
    value of [a.b]. *)
Lemma apply_overrides_discards_below_path :
  let st := [[("a", VRef 1%nat)]; [("b", VRef 2%nat)];
             [("c", VScalar (SInt 1))]] in
  let before := TMap [("a", TMap [("b", TMap [("c", TScalar (SInt 1))])])] in
  let after := TMap [("a", TMap [("b", TScalar (SStr "2"))])] in
  tree_at st (VRef 0%nat) before /\
  applied_paths ["a.b=2"] = [["a"; "b"]] /\
  ("c" ∉ ["a"; "b"]) /\
  tree_lookup ["a"; "b"; "c"] before = Some (TScalar (SInt 1)) /\
  exists st',
    apply_overrides st (VRef 0%nat) ["a.b=2"] = Ok st' /\
    tree_at st' (VRef 0%nat) after /\
    tree_lookup ["a"; "b"; "c"] after = None.
Proof.
  intros st before after.
  assert (Ht : tree_at st (VRef 0%nat) before).
  { exists [0%nat; 1%nat; 2%nat]. split.
    - exists 0%nat, [1%nat; 2%nat]. split; [reflexivity|].
      split; [reflexivity|]. split; [simpl; lia|]. simpl.
      exists [1%nat; 2%nat], []. split; [reflexivity|]. split; [|reflexivity].
      split; [reflexivity|]. exists 1%nat, [2%nat].
      split; [reflexivity|]. split; [reflexivity|]. split; [simpl; lia|]. simpl.
      exists [2%nat], []. split; [reflexivity|]. split; [|reflexivity].
      split; [reflexivity|]. exists 2%nat, [].
      split; [reflexivity|]. split; [reflexivity|]. split; [simpl; lia|]. simpl.
      exists [], []. split; [reflexivity|].
      split; [split; [reflexivity|split; reflexivity]|reflexivity].
    - repeat (apply NoDup_cons_2; [rewrite ?elem_of_cons, ?elem_of_nil;
                                   intros H; intuition discriminate|]).
      apply NoDup_nil_2. }
  split; [exact Ht|]. split; [reflexivity|]. split.
  { rewrite !elem_of_cons, elem_of_nil. intros H. intuition discriminate. }
  split; [reflexivity|].
  destruct (apply_overrides_tree ["a.b=2"] st (VRef 0%nat) _ Ht)
    as (st' & Hrun & Ht').
  exists st'. split; [exact Hrun|]. split; [exact Ht'|]. reflexivity.
Qed.

(** C10 (amended): on a configuration tree, [apply_overrides] keeps the
    subtree at every key path that parts ways with the key paths of all
    the applied entries, that is, that neither runs along one of them nor
    continues one of them. *)
Theorem apply_overrides_frame st data es overrides q :
  tree_at st data (TMap es) ->
  Forall (fun p => diverge p q) (applied_paths overrides) ->
  exists st' es',
    apply_overrides st data overrides = Ok st' /\
    tree_at st' data (TMap es') /\
    tree_lookup q (TMap es') = tree_lookup q (TMap es).
Proof.
  intros Ht Hall.
  destruct (apply_overrides_tree overrides st data es Ht) as (st' & Hrun & Ht').
  exists st', (spec_apply_overrides es overrides).
  split; [exact Hrun|]. split; [exact Ht'|].
  by apply spec_apply_overrides_frame.
Qed.

Lemma apply_overrides_frame_witness :
  let st := [[("name", VScalar (SStr "Widget")); ("seo", VRef 1%nat)];
             [("title", VScalar (SStr "old")); ("tags", VSeq [])]] in
  let es := [("name", TScalar (SStr "Widget"));
             ("seo", TMap [("title", TScalar (SStr "old"));
                           ("tags", TSeq [])])] in
  exists st' es',
    apply_overrides st (VRef 0%nat) ["seo.title=new"; "price=9"] = Ok st' /\
    tree_at st' (VRef 0%nat) (TMap es') /\
    tree_lookup ["seo"; "tags"] (TMap es') = tree_lookup ["seo"; "tags"] (TMap es).
Proof.
  intros st es. apply apply_overrides_frame.
  - exists [0%nat; 1%nat]. split.
    + exists 0%nat, [1%nat]. split; [reflexivity|]. split; [reflexivity|].
      split; [simpl; lia|]. simpl.
      exists [], [1%nat]. split; [reflexivity|].
      split; [split; [reflexivity|split; reflexivity]|].
      exists [1%nat], []. split; [reflexivity|]. split; [|reflexivity].
      split; [reflexivity|]. exists 1%nat, [].
      split; [reflexivity|]. split; [reflexivity|]. split; [simpl; lia|].
      simpl. exists [], []. split; [reflexivity|].
      split; [split; [reflexivity|split; reflexivity]|].
      exists [], []. split; [reflexivity|]. split; [|reflexivity].
      split; [reflexivity|]. exists []. split; reflexivity.
    + apply NoDup_cons_2; [|apply NoDup_singleton].
      intros H. apply list_elem_of_singleton in H. discriminate.
  - repeat constructor; intros [k H]; simpl in H; discriminate.
Defined.

(* ===================================================================== *)
(** * Proofs: the loader *)
(* ===================================================================== *)

(** An empty document ([None]), like every value that counts as false,
    is replaced by a new empty dict. *)
Lemma or_empty_dict_falsy st parsed :
  truthy st parsed = false ->
  or_empty_dict st parsed = (st ++ [[]], VRef (List.length st)).
Proof. intros H. unfold or_empty_dict. rewrite H. reflexivity. Qed.

Lemma or_empty_dict_truthy st parsed :
  truthy st parsed = true -> or_empty_dict st parsed = (st, parsed).
Proof. intros H. unfold or_empty_dict. rewrite H. reflexivity. Qed.

Lemma load_yaml_empty_document safe_load fs p content st :
  fs !! p = Some (File content) ->
  safe_load content = Ok (st, VScalar SNone) ->
  exists st' l,
    load_yaml safe_load fs p = Ok (st', VRef l) /\ obj st' l = [].
Proof.
  intros Hp Hl. unfold load_yaml. rewrite Hp, Hl. simpl.
  exists (st ++ [[]]), (List.length st). split; [reflexivity|].
  unfold obj. rewrite lookup_app_r; [|done].
  by rewrite Nat.sub_diag.
Qed.

(** C7 fails on the code: a document whose top level is a sequence parses,
    is true as a value, and is returned as it is, so the loader returns a
    list where its signature and the specification promise a mapping. *)
Theorem load_yaml_returns_sequence safe_load fs p content st :
  fs !! p = Some (File content) ->
  safe_load content = Ok (st, VSeq [VScalar (SStr "a")]) ->
  load_yaml safe_load fs p = Ok (st, VSeq [VScalar (SStr "a")]) /\
  is_mapping (VSeq [VScalar (SStr "a")]) = false.
Proof.
  intros Hp Hl. unfold load_yaml. rewrite Hp, Hl. split; reflexivity.
Qed.

Lemma load_yaml_returns_sequence_witness :
  let safe_load := fun text : string =>
    if String.eqb text "- a"
    then Ok ([] : store, VSeq [VScalar (SStr "a")])
    else Raise ParseError in
  load_yaml safe_load {[ ["product.yaml"] := File "- a" ]} ["product.yaml"]
  = Ok ([], VSeq [VScalar (SStr "a")]).
Proof.
  intros safe_load.
  apply (load_yaml_returns_sequence safe_load _ _ "- a" []); reflexivity.
Defined.

(* ===================================================================== *)
(** * Proofs: the driver's checks *)
(* ===================================================================== *)

(** C6: when the product file or the template directory does not exist,
    [main] returns 2 after printing one line to the error stream; the file
    system and the output stream are as before, whatever the loader and the
    renderer would have done. *)
Theorem main_missing_input safe_load render w args :
  path_exists (w_fs w) (arg_product args) = false \/
  path_exists (w_fs w) (arg_templates args) = false ->
  exists line,
    main safe_load render w args
    = Ok (World (w_fs w) (w_out w) (w_err w ++ [line]), 2) /\
    (path_exists (w_fs w) (arg_product args) = false ->
     line = "ERROR: product file not found: " +:+ path_str (arg_product args)) /\
    (path_exists (w_fs w) (arg_product args) = true ->
     line = "ERROR: templates dir not found: "
            +:+ path_str (arg_templates args)).
Proof.
  intros H. unfold main.
  destruct (path_exists (w_fs w) (arg_product args)) eqn:Hp; simpl.
  - destruct H as [H|H]; [discriminate|]. rewrite H. simpl.
    eexists. split; [reflexivity|]. split; [discriminate | reflexivity].
  - eexists. split; [reflexivity|]. split; [reflexivity | discriminate].
Qed.

Lemma main_missing_input_witness :
  let failing := fun _ : string => Raise ParseError : result (store * val) in
  let render := fun (_ : filesystem) (_ : path) (_ : store) (_ : dict val) =>
                  Raise RenderError : result string in
  let w := World {[ ["marketing"] := Dir;
                    ["marketing"; "templates"] := Dir ]} [] [] in
  let args := Arguments ["marketing"; "product.yaml"] ["marketing"; "templates"]
                ["marketing"; "dist"] ["a=1"] in
  main failing render w args
  = Ok (World (w_fs w) []
          ["ERROR: product file not found: marketing/product.yaml"], 2).
Proof.
  intros failing render w args.
  destruct (main_missing_input failing render w args) as (line & Hm & Hl & _).
  - left. reflexivity.
  - rewrite Hm, (Hl eq_refl). reflexivity.
Defined.

(* ===================================================================== *)
(** * Proofs: the order on paths *)
(* ===================================================================== *)

Lemma ascii_compare_refl a : Ascii.compare a a = Eq.
Proof. unfold Ascii.compare. apply N.compare_refl. Qed.

Lemma ascii_compare_lt_trans a b c :
  Ascii.compare a b = Lt -> Ascii.compare b c = Lt -> Ascii.compare a c = Lt.
Proof.
  unfold Ascii.compare. rewrite !N.compare_lt_iff. apply N.lt_trans.
Qed.

Lemma string_compare_refl s : String.compare s s = Eq.
Proof. induction s as [|a s IH]; simpl; [done|]. by rewrite ascii_compare_refl. Qed.

Lemma string_compare_lt_trans s1 :
  forall s2 s3,
    String.compare s1 s2 = Lt -> String.compare s2 s3 = Lt ->
    String.compare s1 s3 = Lt.
Proof.
  induction s1 as [|a s1 IH]; intros [|b s2] [|c s3]; simpl; try done.
  destruct (Ascii.compare a b) eqn:Hab; try done;
    destruct (Ascii.compare b c) eqn:Hbc; try done; intros H12 H23.
  - apply Ascii.compare_eq_iff in Hab, Hbc. subst.
    rewrite ascii_compare_refl. eauto.
  - apply Ascii.compare_eq_iff in Hab. subst. by rewrite Hbc.
  - apply Ascii.compare_eq_iff in Hbc. subst. by rewrite Hab.
  - by rewrite (ascii_compare_lt_trans _ _ _ Hab Hbc).
Qed.

Lemma path_compare_refl p : path_compare p p = Eq.
Proof. induction p as [|a p IH]; simpl; [done|]. by rewrite string_compare_refl. Qed.

Lemma path_compare_eq p : forall q, path_compare p q = Eq -> p = q.
Proof.
  induction p as [|a p IH]; intros [|b q]; simpl; try done.
  destruct (String.compare a b) eqn:Hab; try done.
  intros H. apply String.compare_eq_iff in Hab. subst. f_equal. by apply IH.
Qed.

Lemma path_compare_antisym p :
  forall q, path_compare q p = CompOpp (path_compare p q).
Proof.
  induction p as [|a p IH]; intros [|b q]; simpl; try done.
  rewrite (String.compare_antisym b a).
  destruct (String.compare a b); simpl; [apply IH | done | done].
Qed.

Lemma path_compare_lt_trans p :
  forall q r,
    path_compare p q = Lt -> path_compare q r = Lt -> path_compare p r = Lt.
Proof.
  induction p as [|a p IH]; intros [|b q] [|c r]; simpl; try done.
  destruct (String.compare a b) eqn:Hab; try done;
    destruct (String.compare b c) eqn:Hbc; try done; intros H12 H23.
  - apply String.compare_eq_iff in Hab, Hbc. subst.
    rewrite string_compare_refl. eauto.
  - apply String.compare_eq_iff in Hab. subst. by rewrite Hbc.
  - apply String.compare_eq_iff in Hbc. subst. by rewrite Hab.
  - by rewrite (string_compare_lt_trans _ _ _ Hab Hbc).
Qed.

#[global] Instance path_le_total : Total path_le.
Proof.
  intros p q. unfold path_le. rewrite (path_compare_antisym p q).
  destruct (path_compare p q); simpl; [left|left|right]; congruence.
Qed.

#[global] Instance path_le_trans : Transitive path_le.
Proof.
  intros p q r. unfold path_le.
  destruct (path_compare p q) eqn:Hpq; [| |done]; intros _.
  - apply path_compare_eq in Hpq. by subst.
  - destruct (path_compare q r) eqn:Hqr; [| |done]; intros _.
    + apply path_compare_eq in Hqr. subst. by rewrite Hpq.
    + by rewrite (path_compare_lt_trans _ _ _ Hpq Hqr).
Qed.

#[global] Instance path_le_antisym : AntiSymm (=) path_le.
Proof.
  intros p q. unfold path_le. rewrite (path_compare_antisym p q).
  destruct (path_compare p q) eqn:Hpq; simpl; try done.
  intros _ _. by apply path_compare_eq.
Qed.

(* ===================================================================== *)
(** * Proofs: the file system *)
(* ===================================================================== *)

Lemma strip_prefix_Some t :
  forall p r, strip_prefix t p = Some r <-> p = t ++ r.
Proof.
  induction t as [|a t IH]; intros p r; simpl.
  - split; [by intros [= ->] | by intros ->].
  - destruct p as [|b p]; [split; done|].
    destruct (String.eqb a b) eqn:E.
    + apply String.eqb_eq in E. subst b. rewrite IH.
      split; [by intros -> | by intros [= ->]].
    + split; [done|]. intros [= -> _]. by rewrite String.eqb_refl in E.
Qed.

Lemma strip_prefix_app t r : strip_prefix t (t ++ r) = Some r.
Proof. by apply strip_prefix_Some. Qed.

(** The view of a directory tree is the file system read below it. *)
Lemma subtree_lookup (fs : filesystem) t r :
  subtree fs t !! r = fs !! (t ++ r).
Proof.
  unfold subtree.
  set (g := fun pn : list string * node =>
              (fun r => (r, snd pn)) <$> strip_prefix t (fst pn)).
  assert (Hin : forall r n, (r, n) ∈ omap g (map_to_list fs)
                            <-> fs !! (t ++ r) = Some n).
  { intros r' n. rewrite list_elem_of_omap. split.
    - intros ([p n'] & Hp & Hg). unfold g in Hg. simpl in Hg.
      destruct (strip_prefix t p) as [r0|] eqn:Hs; [|done].
      injection Hg as -> ->. apply strip_prefix_Some in Hs. subst p.
      by apply elem_of_map_to_list.
    - intros H. exists (t ++ r', n). split; [by apply elem_of_map_to_list|].
      unfold g. simpl. by rewrite strip_prefix_app. }
  assert (Hfst : forall (l : list (list string * node)) r',
             r' ∈ (omap g l).*1 -> t ++ r' ∈ l.*1).
  { intros l r' Hr'. apply list_elem_of_fmap in Hr' as ([r0 n] & -> & Hr).
    apply list_elem_of_omap in Hr as ([p n'] & Hp & Hg).
    unfold g in Hg. simpl in Hg.
    destruct (strip_prefix t p) as [r1|] eqn:Hs; [|done].
    injection Hg as -> ->. apply strip_prefix_Some in Hs. subst p.
    apply list_elem_of_fmap. exists (t ++ r0, n). auto. }
  assert (Hnd : NoDup (omap g (map_to_list fs)).*1).
  { assert (Hk : NoDup (map_to_list fs).*1) by apply NoDup_fst_map_to_list.
    revert Hk. generalize (map_to_list fs).
    induction l as [|[p n] l IH]; intros Hk; simpl; [constructor|].
    apply NoDup_cons in Hk as [Hp Hk]. specialize (IH Hk).
    unfold g at 1. simpl.
    destruct (strip_prefix t p) as [r0|] eqn:Hs; simpl; [|exact IH].
    apply NoDup_cons. split; [|exact IH].
    intros Hr0. apply Hp. apply strip_prefix_Some in Hs. subst p.
    by apply Hfst. }
  apply option_eq. intros n. rewrite <- Hin. split.
  - apply elem_of_list_to_map_2.
  - by apply elem_of_list_to_map_1.
Qed.

Lemma subtree_ext (fs1 fs2 : filesystem) t :
  (forall r, fs1 !! (t ++ r) = fs2 !! (t ++ r)) ->
  subtree fs1 t = subtree fs2 t.
Proof. intros H. apply map_eq. intros r. by rewrite !subtree_lookup. Qed.

(* ===================================================================== *)
(** * Proofs: strings and suffixes *)
(* ===================================================================== *)

Lemma string_app_cons a (s t : string) : String a s +:+ t = String a (s +:+ t).
Proof. reflexivity. Qed.

Lemma string_app_nil_l (t : string) : "" +:+ t = t.
Proof. reflexivity. Qed.

Lemma string_length_app (s t : string) :
  String.length (s +:+ t) = (String.length s + String.length t)%nat.
Proof.
  induction s as [|a s IH]; [done|].
  rewrite string_app_cons. simpl. by rewrite IH.
Qed.

Lemma string_app_nil_r (s : string) : s +:+ "" = s.
Proof.
  induction s as [|a s IH]; [done|]. rewrite string_app_cons. by rewrite IH.
Qed.

Lemma string_app_assoc (s t u : string) : (s +:+ t) +:+ u = s +:+ (t +:+ u).
Proof.
  induction s as [|a s IH]; [done|]. rewrite !string_app_cons. by rewrite IH.
Qed.

Lemma string_app_inv_tail (s s' t : string) : s +:+ t = s' +:+ t -> s = s'.
Proof.
  revert s'. induction s as [|a s IH]; intros [|a' s'] H.
  - done.
  - apply (f_equal String.length) in H.
    rewrite string_app_nil_l, string_app_cons in H. simpl in H.
    rewrite string_length_app in H. lia.
  - apply (f_equal String.length) in H.
    rewrite string_app_nil_l, string_app_cons in H. simpl in H.
    rewrite string_length_app in H. lia.
  - rewrite !string_app_cons in H. injection H as -> H. f_equal. by apply IH.
Qed.

Lemma string_take_drop n : forall s, Py.take n s +:+ Py.drop n s = s.
Proof.
  unfold Py.take. induction n as [|n IH]; intros [|a s]; simpl; try done.
  rewrite string_app_cons. by rewrite IH.
Qed.

Lemma string_take_app (s t : string) : Py.take (String.length s) (s +:+ t) = s.
Proof.
  unfold Py.take. induction s as [|a s IH].
  - by destruct t.
  - rewrite string_app_cons. simpl. by rewrite IH.
Qed.

Lemma string_drop_app (s t : string) : Py.drop (String.length s) (s +:+ t) = t.
Proof.
  induction s as [|a s IH]; [done|]. rewrite string_app_cons. exact IH.
Qed.

Lemma string_length_drop n : forall s, String.length (Py.drop n s) = (String.length s - n)%nat.
Proof. induction n as [|n IH]; intros [|a s]; simpl; try done; lia. Qed.

Lemma endswith_iff t s :
  Py.endswith t s = true <-> exists pre, s = pre +:+ t.
Proof.
  unfold Py.endswith. rewrite andb_true_iff, String.eqb_eq, Nat.leb_le. split.
  - intros [Hd Hl]. exists (Py.take (String.length s - String.length t) s).
    pose proof (string_take_drop (String.length s - String.length t) s) as H.
    rewrite Hd in H. by symmetry.
  - intros [pre ->]. rewrite string_length_app. split; [|lia].
    replace (String.length pre + String.length t - String.length t)%nat
      with (String.length pre) by lia.
    apply string_drop_app.
Qed.

Lemma rfind_None c s : Py.rfind c s = None <-> Py.contains c s = false.
Proof.
  induction s as [|a s IH]; simpl; [done|].
  destruct (Py.rfind c s) as [i|].
  - split; [done|]. destruct (Ascii.eqb a c); [done|].
    intros H. apply IH in H. done.
  - destruct (Ascii.eqb a c); [split; done|]. tauto.
Qed.

Lemma rfind_Some c s i :
  Py.rfind c s = Some i ->
  (i < String.length s)%nat /\
  exists rest, Py.drop i s = String c rest /\ Py.contains c rest = false.
Proof.
  revert i. induction s as [|a s IH]; intros i; simpl; [done|].
  destruct (Py.rfind c s) as [j|] eqn:Hr.
  - intros [= <-]. destruct (IH j eq_refl) as (Hj & rest & Hd & Hc).
    split; [lia|]. exists rest. auto.
  - destruct (Ascii.eqb a c) eqn:E; [|done]. intros [= <-].
    apply Ascii.eqb_eq in E. subst a. split; [lia|].
    exists s. split; [done|]. by apply rfind_None.
Qed.

Lemma rfind_app_last c pre rest :
  Py.contains c rest = false ->
  Py.rfind c (pre +:+ String c rest) = Some (String.length pre).
Proof.
  intros Hc. induction pre as [|a pre IH].
  - apply rfind_None in Hc. rewrite string_app_nil_l. simpl.
    rewrite Hc, Ascii.eqb_refl. done.
  - rewrite string_app_cons. simpl. by rewrite IH.
Qed.

(** A name has the suffix [.j2] when it ends with [.j2] after a stem that is
    not empty. *)
Lemma suffix_j2_iff n :
  suffix_of_name n = ".j2" <-> exists stem, stem <> "" /\ n = stem +:+ ".j2".
Proof.
  unfold suffix_of_name. split.
  - destruct (Py.rfind "." n) as [i|] eqn:Hr; [|done].
    destruct ((0 <? i)%nat && (i <? String.length n - 1)%nat) eqn:Hi; [|done].
    apply andb_true_iff in Hi as [Hi0 Hi1].
    apply Nat.ltb_lt in Hi0, Hi1. intros Hd.
    exists (Py.take i n). split.
    + intros Ht. pose proof (string_take_drop i n) as Hn.
      rewrite Ht, Hd, string_app_nil_l in Hn. subst n.
      vm_compute in Hr. injection Hr as <-. lia.
    + rewrite <- Hd. symmetry. apply string_take_drop.
  - intros (stem & Hne & ->).
    rewrite (rfind_app_last "." stem "j2" eq_refl).
    rewrite string_length_app. simpl String.length.
    assert (Hlen : (0 < String.length stem)%nat).
    { destruct stem; [done | simpl; lia]. }
    replace ((0 <? String.length stem)%nat) with true
      by (symmetry; apply Nat.ltb_lt; lia).
    replace ((String.length stem <? String.length stem + 3 - 1)%nat) with true
      by (symmetry; apply Nat.ltb_lt; lia).
    simpl. apply string_drop_app.
Qed.

Lemma suffix_j2_endswith n :
  suffix_of_name n = ".j2" <-> Py.endswith ".j2" n = true /\ n <> ".j2".
Proof.
  rewrite suffix_j2_iff, endswith_iff. split.
  - intros (stem & Hne & ->). split; [eauto|].
    intros H. apply (string_app_inv_tail stem "" ".j2") in H. done.
  - intros [[pre ->] Hne]. exists pre. split; [|done]. by intros ->.
Qed.

(* ===================================================================== *)
(** * Proofs: template discovery *)
(* ===================================================================== *)

Lemma glob_all_elem (fs : filesystem) t p n :
  (p, n) ∈ glob_all fs t <-> exists r, r <> [] /\ p = t ++ r /\ fs !! p = Some n.
Proof.
  unfold glob_all. rewrite list_elem_of_omap. split.
  - intros ([r n'] & Hin & Hh). simpl in Hh.
    apply elem_of_map_to_list in Hin. rewrite subtree_lookup in Hin.
    destruct r as [|a r]; [done|]. injection Hh as <- <-.
    exists (a :: r). auto.
  - intros (r & Hr & -> & Hp). exists (r, n). split.
    + apply elem_of_map_to_list. by rewrite subtree_lookup.
    + simpl. by destruct r.
Qed.

Lemma glob_all_NoDup (fs : filesystem) t : NoDup (glob_all fs t).*1.
Proof.
  unfold glob_all.
  assert (Hk : NoDup (map_to_list (subtree fs t)).*1)
    by apply NoDup_fst_map_to_list.
  revert Hk. generalize (map_to_list (subtree fs t)).
  induction l as [|[r n] l IH]; intros Hk; simpl; [constructor|].
  apply NoDup_cons in Hk as [Hr Hk]. specialize (IH Hk).
  destruct r as [|a r]; simpl; [exact IH|].
  apply NoDup_cons. split; [|exact IH].
  intros Hin. apply Hr. apply list_elem_of_fmap in Hin as ([p n'] & Hp & Hin).
  apply list_elem_of_omap in Hin as ([r' n''] & Hin & Hh). simpl in *.
  destruct r' as [|a' r']; [done|]. injection Hh as <- <-.
  apply app_inv_head in Hp. subst.
  apply list_elem_of_fmap. exists (a' :: r', n''). auto.
Qed.

Lemma filter_fst_NoDup {A B} (P : A * B -> Prop) `{!forall x, Decision (P x)}
  (l : list (A * B)) :
  NoDup l.*1 -> NoDup (filter P l).*1.
Proof.
  induction l as [|x l IH]; intros Hnd; [constructor|].
  apply NoDup_cons in Hnd as [Hx Hnd]. rewrite filter_cons.
  destruct (decide (P x)); [|by apply IH].
  simpl. apply NoDup_cons. split; [|by apply IH].
  intros Hin. apply Hx. apply list_elem_of_fmap in Hin as (y & -> & Hy).
  apply list_elem_of_filter in Hy as [_ Hy].
  apply list_elem_of_fmap. eauto.
Qed.

Lemma discover_templates_elem (fs : filesystem) t p :
  p ∈ discover_templates fs t <->
  exists r c, r <> [] /\ p = t ++ r /\ fs !! p = Some (File c) /\
              suffix p = ".j2".
Proof.
  unfold discover_templates. rewrite merge_sort_Permutation.
  rewrite list_elem_of_fmap. split.
  - intros ([p' n] & -> & Hin). apply list_elem_of_filter in Hin as [Ht Hin].
    apply glob_all_elem in Hin as (r & Hr & -> & Hp).
    unfold is_template in Ht. simpl in Ht.
    apply Is_true_true, andb_true_iff in Ht as [Hf Hs].
    apply String.eqb_eq in Hs. destruct n as [c|]; [|done].
    exists r, c. auto.
  - intros (r & c & Hr & -> & Hp & Hs). exists (t ++ r, File c).
    split; [done|]. apply list_elem_of_filter. split.
    + unfold is_template. simpl. rewrite Hs. done.
    + apply glob_all_elem. eauto.
Qed.

Lemma discover_templates_NoDup (fs : filesystem) t :
  NoDup (discover_templates fs t).
Proof.
  unfold discover_templates. rewrite merge_sort_Permutation.
  apply filter_fst_NoDup, glob_all_NoDup.
Qed.

(** C5, as stated, fails: a regular file named [.j2] lies under the root
    and its name ends with the marker suffix, but it has no suffix for
    [pathlib] and is not discovered. *)
Lemma discover_templates_skips_dot_j2 :
  let fs : filesystem :=
    {[ ["t"] := Dir; ["t"; ".j2"] := File "hidden" ]} in
  fs !! ["t"; ".j2"] = Some (File "hidden") /\
  Py.endswith ".j2" (name ["t"; ".j2"]) = true /\
  discover_templates fs ["t"] = [].
Proof. vm_compute. auto. Qed.

(** C5 (amended): [discover_templates] returns exactly the regular files
    below the root, at any depth, whose name ends with [.j2] and is longer
    than that (the name [.j2] alone has no suffix), each once, in the order
    of the paths. *)
Theorem discover_templates_spec (fs : filesystem) (templates_dir : path) :
  (forall p,
     p ∈ discover_templates fs templates_dir <->
     exists r c, r <> [] /\ p = templates_dir ++ r /\
                 fs !! p = Some (File c) /\
                 Py.endswith ".j2" (name p) = true /\ name p <> ".j2") /\
  StronglySorted path_le (discover_templates fs templates_dir) /\
  NoDup (discover_templates fs templates_dir).
Proof.
  split; [|split].
  - intros p. rewrite discover_templates_elem.
    unfold suffix. setoid_rewrite suffix_j2_endswith. done.
  - apply StronglySorted_merge_sort; apply _.
  - apply discover_templates_NoDup.
Qed.

(* ===================================================================== *)
(** * Proofs: directories and files *)
(* ===================================================================== *)

(** [ensure_dir] neither creates nor removes a file. *)
Lemma mkdir_from_files todo :
  forall (fs : filesystem) done fs' q c,
    mkdir_from fs done todo = Ok fs' ->
    (fs' !! q = Some (File c) <-> fs !! q = Some (File c)).
Proof.
  induction todo as [|a todo IH]; intros fs done fs' q c; simpl.
  - intros [= <-]. done.
  - destruct (fs !! (done ++ [a])) as [[c0|]|] eqn:Hq0; [done| |].
    + apply IH.
    + intros H. rewrite (IH _ _ _ q c H).
      destruct (decide (done ++ [a] = q)) as [<-|Hne].
      * rewrite lookup_insert_eq, Hq0. split; done.
      * by rewrite lookup_insert_ne.
Qed.

(** What [ensure_dir] finds it leaves as it is. *)
Lemma mkdir_from_keeps todo :
  forall (fs : filesystem) done fs' q,
    mkdir_from fs done todo = Ok fs' ->
    is_Some (fs !! q) -> fs' !! q = fs !! q.
Proof.
  induction todo as [|a todo IH]; intros fs done fs' q; simpl.
  - intros [= <-]. done.
  - destruct (fs !! (done ++ [a])) as [[c0|]|] eqn:Hq0; [done| |].
    + apply IH.
    + intros H Hq. rewrite (IH _ _ _ q H).
      * apply lookup_insert_ne. intros <-. rewrite Hq0 in Hq.
        by apply is_Some_None in Hq.
      * destruct (decide (done ++ [a] = q)) as [<-|Hne].
        -- rewrite lookup_insert_eq. eauto.
        -- by rewrite lookup_insert_ne.
Qed.

(** Two runs of [ensure_dir] for the same path keep what the two file
    systems have in common. *)
Lemma mkdir_from_agree todo q :
  forall (fs1 fs2 : filesystem) done fs1' fs2',
    mkdir_from fs1 done todo = Ok fs1' ->
    mkdir_from fs2 done todo = Ok fs2' ->
    fs1 !! q = fs2 !! q -> fs1' !! q = fs2' !! q.
Proof.
  induction todo as [|a todo IH]; intros fs1 fs2 done fs1' fs2'; simpl.
  - by intros [= <-] [= <-].
  - destruct (fs1 !! (done ++ [a])) as [[c1|]|] eqn:H1; [done| |];
      (destruct (fs2 !! (done ++ [a])) as [[c2|]|] eqn:H2; [done| |]);
      intros Hm1 Hm2 Hq; apply (IH _ _ _ _ _ Hm1 Hm2);
      destruct (decide (done ++ [a] = q)) as [<-|Hne];
      rewrite ?lookup_insert_eq, ?lookup_insert_ne by done; congruence.
Qed.

Lemma write_text_Ok (fs : filesystem) p content fs' :
  write_text fs p content = Ok fs' -> fs' = <[p := File content]> fs.
Proof.
  unfold write_text. destruct p as [|a p]; [done|].
  generalize (a :: p). intros q.
  destruct (fs !! q) as [[c|]|]; [|done|];
    (destruct (parent q) as [|b d]; [congruence|]);
    (destruct (fs !! (b :: d)) as [[c'|]|]; congruence).
Qed.

(* ===================================================================== *)
(** * Proofs: target paths *)
(* ===================================================================== *)

Lemma name_app t rel : rel <> [] -> name (t ++ rel) = name rel.
Proof.
  intros Hr. unfold name. induction t as [|a t IH]; [done|].
  simpl. destruct (t ++ rel) eqn:E; [|exact IH].
  apply app_eq_nil in E as [_ ->]. done.
Qed.

Lemma discover_templates_under (fs : filesystem) t p :
  p ∈ discover_templates fs t -> template_under t p.
Proof.
  intros (r & c & Hr & -> & _ & Hs)%discover_templates_elem.
  exists r. split; [done|]. split; [done|].
  unfold suffix in Hs. by rewrite name_app in Hs.
Qed.

Lemma with_suffix_empty_template rel :
  suffix_of_name (name rel) = ".j2" ->
  with_suffix_empty rel = Ok (remove_marker rel).
Proof.
  intros Hs. unfold with_suffix_empty, remove_marker, parent.
  pose proof Hs as (stem & Hne & Hn)%suffix_j2_iff.
  destruct stem as [|a stem]; [done|].
  rewrite Hn in Hs |- *. rewrite string_app_cons in Hs |- *.
  cbv iota. rewrite Hs. reflexivity.
Qed.

Lemma target_of_template t o p :
  template_under t p ->
  exists rel,
    strip_prefix t p = Some rel /\
    target_path_for rel o = Ok (output_path t o p).
Proof.
  intros (rel & Hr & -> & Hs). exists rel.
  split; [apply strip_prefix_app|].
  unfold target_path_for, output_path.
  rewrite (with_suffix_empty_template rel Hs). simpl.
  by rewrite drop_app_length.
Qed.

Lemma remove_marker_inj rel1 rel2 :
  rel1 <> [] -> rel2 <> [] ->
  suffix_of_name (name rel1) = ".j2" -> suffix_of_name (name rel2) = ".j2" ->
  remove_marker rel1 = remove_marker rel2 -> rel1 = rel2.
Proof.
  intros H1 H2 Hs1 Hs2 Heq. unfold remove_marker, parent in Heq.
  apply app_inj_tail in Heq as [Hp Hstem].
  apply suffix_j2_iff in Hs1 as (s1 & _ & Hn1).
  apply suffix_j2_iff in Hs2 as (s2 & _ & Hn2).
  assert (Hn : name rel1 = name rel2).
  { rewrite Hn1, Hn2 in Hstem |- *.
    rewrite !string_length_app in Hstem. simpl in Hstem.
    replace (String.length s1 + 3 - 3)%nat with (String.length s1) in Hstem by lia.
    replace (String.length s2 + 3 - 3)%nat with (String.length s2) in Hstem by lia.
    rewrite !string_take_app in Hstem. by subst. }
  rewrite (app_removelast_last "" H1), (app_removelast_last "" H2).
  unfold name in Hn. by rewrite Hp, Hn.
Qed.

Lemma output_path_inj t o p1 p2 :
  template_under t p1 -> template_under t p2 ->
  output_path t o p1 = output_path t o p2 -> p1 = p2.
Proof.
  intros (r1 & Hr1 & -> & Hs1) (r2 & Hr2 & -> & Hs2). unfold output_path.
  rewrite !drop_app_length. intros H%app_inv_head.
  f_equal. by apply remove_marker_inj.
Qed.

Lemma output_paths_NoDup t o tpls :
  Forall (template_under t) tpls -> NoDup tpls ->
  NoDup (output_path t o <$> tpls).
Proof.
  intros Hall Hnd. induction Hnd as [|p tpls Hp Hnd IH]; [constructor|].
  apply Forall_cons in Hall as [Hu Hall]. simpl. apply NoDup_cons. split.
  - intros Hin. apply list_elem_of_fmap in Hin as (p' & Heq & Hp').
    rewrite Forall_forall in Hall.
    apply output_path_inj in Heq; [by subst | done | by apply Hall].
  - by apply IH.
Qed.

(** The text of an output file: the rendered text without white space at
    its ends, and one line feed. *)
Lemma lstrip_clean s : Py.starts_with_space (Py.lstrip s) = false.
Proof.
  induction s as [|a s IH]; simpl; [done|].
  destruct (Py.isspace a) eqn:E; [exact IH|]. simpl. exact E.
Qed.

Lemma rstrip_clean s : Py.ends_with_space (Py.rstrip s) = false.
Proof.
  induction s as [|a s IH]; simpl; [done|].
  destruct (Py.rstrip s) as [|b r] eqn:Hr.
  - destruct (Py.isspace a) eqn:E; simpl; [done | exact E].
  - exact IH.
Qed.

Lemma rstrip_starts s :
  Py.starts_with_space s = false -> Py.starts_with_space (Py.rstrip s) = false.
Proof.
  destruct s as [|a s]; simpl; [done|]. intros Ha.
  destruct (Py.rstrip s); [by rewrite Ha | exact Ha].
Qed.

Lemma strip_clean s :
  Py.starts_with_space (Py.strip s) = false /\
  Py.ends_with_space (Py.strip s) = false.
Proof.
  unfold Py.strip. split; [apply rstrip_starts, lstrip_clean | apply rstrip_clean].
Qed.

(* ===================================================================== *)
(** * Proofs: the rendering loop *)
(* ===================================================================== *)

Section RenderLoop.
Variable render : filesystem -> path -> store -> dict val -> result string.
Variables (st : store) (context : dict val) (templates_dir out_dir : path).

#[local] Abbreviation loop :=
  (render_loop render st context templates_dir out_dir).
#[local] Abbreviation one :=
  (render_one render st context templates_dir out_dir).
#[local] Abbreviation out := (output_path templates_dir out_dir).

(** One round on a template: the text is rendered from the files below
    the template root as they are then, the directory of the output path is
    made, and the file is written. *)
Lemma render_one_Ok w p w' :
  template_under templates_dir p ->
  one w p = Ok w' ->
  exists output fs1,
    render (subtree (w_fs w) templates_dir)
      (drop (List.length templates_dir) p) st context = Ok output /\
    ensure_dir (w_fs w) (parent (out p)) = Ok fs1 /\
    w_fs w' = <[out p := File (file_text output)]> fs1 /\
    w_out w' = w_out w ++ ["Wrote " +:+ path_str (out p)] /\
    w_err w' = w_err w.
Proof.
  intros Hu. destruct (target_of_template _ out_dir _ Hu) as (rel & Hs & Ht).
  assert (Hrel : drop (List.length templates_dir) p = rel).
  { apply strip_prefix_Some in Hs. subst p. apply drop_app_length. }
  unfold render_one. rewrite Hs. simpl. rewrite Hrel.
  destruct (render _ rel st context) as [output|]; [|done]. simpl.
  rewrite Ht. simpl.
  destruct (ensure_dir (w_fs w) (parent (out p))) as [fs1|]; [|done]. simpl.
  destruct (write_text fs1 (out p) (file_text output)) as [fs2|] eqn:Hw;
    [|done]. simpl.
  intros [= <-]. apply write_text_Ok in Hw. subst fs2.
  exists output, fs1. simpl. auto.
Qed.

Lemma render_loop_app l1 l2 w w' :
  loop w (l1 ++ l2) = Ok w' <->
  exists wm, loop w l1 = Ok wm /\ loop wm l2 = Ok w'.
Proof.
  revert w. induction l1 as [|p l1 IH]; intros w; simpl.
  - split; [eauto|]. by intros (wm & [= <-] & H).
  - destruct (one w p) as [w1|]; simpl; [apply IH|].
    split; [done|]. by intros (wm & H & _).
Qed.

(** The loop prints one line per template, in the order of the list. *)
Lemma render_loop_out tpls :
  forall w w',
    Forall (template_under templates_dir) tpls ->
    loop w tpls = Ok w' ->
    w_out w' = w_out w ++ ((fun p => "Wrote " +:+ path_str (out p)) <$> tpls) /\
    w_err w' = w_err w.
Proof.
  induction tpls as [|p tpls IH]; intros w w' Hall; simpl.
  - intros [= <-]. by rewrite app_nil_r.
  - apply Forall_cons in Hall as [Hu Hall].
    destruct (one w p) as [w1|] eqn:H1; [|done]. simpl. intros Hl.
    destruct (render_one_Ok _ _ _ Hu H1) as (o & fs1 & _ & _ & _ & Ho & He).
    destruct (IH _ _ Hall Hl) as [-> ->]. rewrite Ho, He.
    by rewrite <- app_assoc.
Qed.

(** A file that is not an output path of the list is left as it is. *)
Lemma render_loop_keeps tpls :
  forall w w' q c,
    Forall (template_under templates_dir) tpls ->
    loop w tpls = Ok w' ->
    q ∉ out <$> tpls ->
    (w_fs w' !! q = Some (File c) <-> w_fs w !! q = Some (File c)).
Proof.
  induction tpls as [|p tpls IH]; intros w w' q c Hall; simpl.
  - intros [= <-]. done.
  - apply Forall_cons in Hall as [Hu Hall].
    destruct (one w p) as [w1|] eqn:H1; [|done]. simpl. intros Hl Hq.
    apply not_elem_of_cons in Hq as [Hq1 Hq2].
    destruct (render_one_Ok _ _ _ Hu H1) as (o & fs1 & _ & Hm & Hfs & _).
    rewrite (IH _ _ q c Hall Hl Hq2), Hfs, lookup_insert_ne by done.
    exact (mkdir_from_files _ _ _ _ q c Hm).
Qed.

(** Every file after the loop is an output of the list or was there. *)
Lemma render_loop_files tpls :
  forall w w' q c,
    Forall (template_under templates_dir) tpls ->
    loop w tpls = Ok w' ->
    w_fs w' !! q = Some (File c) ->
    q ∈ out <$> tpls \/ w_fs w !! q = Some (File c).
Proof.
  intros w w' q c Hall Hl Hq.
  destruct (decide (q ∈ out <$> tpls)) as [Hin|Hnin]; [by left|right].
  by apply (render_loop_keeps tpls w w' q c Hall Hl Hnin).
Qed.

(** Two runs of the loop from file systems that hold the same files below
    the template root: what the file systems have in common stays in common,
    the output files are the same and so are the lines printed. *)
Lemma render_loop_agree tpls :
  forall w1 w2 w1' w2',
    Forall (template_under templates_dir) tpls ->
    (forall r, w_fs w1 !! (templates_dir ++ r) = w_fs w2 !! (templates_dir ++ r)) ->
    loop w1 tpls = Ok w1' -> loop w2 tpls = Ok w2' ->
    (forall q, w_fs w1 !! q = w_fs w2 !! q -> w_fs w1' !! q = w_fs w2' !! q) /\
    (forall p, p ∈ tpls -> w_fs w1' !! out p = w_fs w2' !! out p).
Proof.
  induction tpls as [|p tpls IH]; intros w1 w2 w1' w2' Hall Hsame; simpl.
  - intros [= <-] [= <-]. split; [done|]. intros p Hp.
    by apply elem_of_nil in Hp.
  - apply Forall_cons in Hall as [Hu Hall].
    destruct (one w1 p) as [v1|] eqn:H1; [|done].
    destruct (one w2 p) as [v2|] eqn:H2; [|done]. simpl. intros Hl1 Hl2.
    destruct (render_one_Ok _ _ _ Hu H1) as (o1 & fa & Hr1 & Hm1 & Hf1 & _).
    destruct (render_one_Ok _ _ _ Hu H2) as (o2 & fb & Hr2 & Hm2 & Hf2 & _).
    rewrite (subtree_ext _ _ _ Hsame) in Hr1. rewrite Hr1 in Hr2.
    injection Hr2 as <-.
    assert (Hstep : forall q, w_fs w1 !! q = w_fs w2 !! q ->
                              w_fs v1 !! q = w_fs v2 !! q).
    { intros q Hq. rewrite Hf1, Hf2.
      destruct (decide (out p = q)) as [<-|Hne].
      - by rewrite !lookup_insert_eq.
      - rewrite !lookup_insert_ne by done.
        exact (mkdir_from_agree _ q _ _ _ _ _ Hm1 Hm2 Hq). }
    assert (Hout : w_fs v1 !! out p = w_fs v2 !! out p).
    { by rewrite Hf1, Hf2, !lookup_insert_eq. }
    destruct (IH v1 v2 w1' w2' Hall (fun r => Hstep _ (Hsame r)) Hl1 Hl2)
      as [Hkeep Houts].
    split.
    + intros q Hq. by apply Hkeep, Hstep.
    + intros p' Hp'. apply elem_of_cons in Hp' as [->|Hp']; [|by apply Houts].
      by apply Hkeep.
Qed.

(** The output file of a template holds the text rendered at its turn. *)
Lemma render_loop_written pre p post w w' :
  Forall (template_under templates_dir) (pre ++ p :: post) ->
  NoDup (out <$> pre ++ p :: post) ->
  loop w (pre ++ p :: post) = Ok w' ->
  exists w_p output,
    loop w pre = Ok w_p /\
    render (subtree (w_fs w_p) templates_dir)
      (drop (List.length templates_dir) p) st context = Ok output /\
    w_fs w' !! out p = Some (File (file_text output)).
Proof.
  intros Hall Hnd Hl.
  apply render_loop_app in Hl as (w_p & Hpre & Hl). simpl in Hl.
  apply Forall_app in Hall as [_ Hall].
  apply Forall_cons in Hall as [Hu Hall].
  destruct (one w_p p) as [w1|] eqn:H1; [|done]. simpl in Hl.
  destruct (render_one_Ok _ _ _ Hu H1) as (o & fs1 & Hr & _ & Hfs & _).
  exists w_p, o. split; [done|]. split; [done|].
  rewrite fmap_app in Hnd. apply NoDup_app in Hnd as (_ & _ & Hnd).
  simpl in Hnd. apply NoDup_cons in Hnd as [Hp _].
  apply (render_loop_keeps post w1 w' _ _ Hall Hl Hp).
  by rewrite Hfs, lookup_insert_eq.
Qed.
End RenderLoop.

(** [discover_templates] reads the file system below the root only. *)
Lemma discover_templates_ext (fs1 fs2 : filesystem) t :
  (forall r, fs1 !! (t ++ r) = fs2 !! (t ++ r)) ->
  discover_templates fs1 t = discover_templates fs2 t.
Proof.
  intros H. unfold discover_templates, glob_all.
  by rewrite (subtree_ext _ _ _ H).
Qed.

Lemma discover_templates_all_under (fs : filesystem) t :
  Forall (template_under t) (discover_templates fs t).
Proof. apply Forall_forall. intros p. apply discover_templates_under. Qed.

Lemma render_all_Ok render w st data t o w' :
  render_all render w st data t o = Ok w' ->
  exists fs0 l,
    ensure_dir (w_fs w) o = Ok fs0 /\ data = VRef l /\
    render_loop render st (obj st l) t o (World fs0 (w_out w) (w_err w))
      (discover_templates fs0 t) = Ok w'.
Proof.
  unfold render_all.
  destruct (ensure_dir (w_fs w) o) as [fs0|]; [|done]. simpl.
  destruct data as [s|items|l]; try done. simpl. eauto.
Qed.



(* ===================================================================== *)
(** * Proofs: the whole run *)
(* ===================================================================== *)

Lemma main_Ok_0 safe_load render w args w' :
  main safe_load render w args = Ok (w', 0) ->
  exists content st parsed st' ,
    w_fs w !! arg_product args = Some (File content) /\
    safe_load content = Ok (st, parsed) /\
    apply_overrides (or_empty_dict st parsed).1 (or_empty_dict st parsed).2
      (arg_overrides args) = Ok st' /\
    render_all render w st' (or_empty_dict st parsed).2
      (arg_templates args) (arg_out args) = Ok w'.
Proof.
  unfold main.
  destruct (path_exists (w_fs w) (arg_product args)); simpl; [|done].
  destruct (path_exists (w_fs w) (arg_templates args)); simpl; [|done].
  unfold load_yaml.
  destruct (w_fs w !! arg_product args) as [[content|]|]; try done.
  destruct (safe_load content) as [[st parsed]|] eqn:Hl; [|done]. simpl.
  destruct (or_empty_dict st parsed) as [st0 data] eqn:Ho. simpl.
  destruct (apply_overrides st0 data (arg_overrides args)) as [st'|] eqn:Ha;
    [|done]. simpl.
  destruct (render_all render w st' data (arg_templates args) (arg_out args))
    as [w1|] eqn:Hr; [|done]. simpl.
  intros [= <-]. exists content, st, parsed, st'. rewrite Ho. auto.
Qed.



(* ===================================================================== *)
(** * More on [ensure_dir] *)
(* ===================================================================== *)

Lemma mkdir_from_made todo :
  forall (fs : filesystem) base fs' q1 q2,
    mkdir_from fs base todo = Ok fs' ->
    todo = q1 ++ q2 -> q1 <> [] ->
    fs' !! (base ++ q1) = Some Dir.
Proof.
  induction todo as [|a todo IH]; intros fs base fs' q1 q2 Hm Heq Hne.
  - symmetry in Heq. apply app_eq_nil in Heq as [-> _]. done.
  - destruct q1 as [|b q1]; [done|]. simpl in Heq. injection Heq as <- Heq.
    simpl in Hm.
    assert (Hstep : exists fs1, mkdir_from fs1 (base ++ [a]) todo = Ok fs' /\
                                fs1 !! (base ++ [a]) = Some Dir).
    { destruct (fs !! (base ++ [a])) as [[c|]|] eqn:Hq; [done| |].
      - exists fs. auto.
      - exists (<[base ++ [a] := Dir]> fs). split; [done|].
        apply lookup_insert_eq. }
    destruct Hstep as (fs1 & Hm1 & Hd).
    destruct q1 as [|b q1].
    + rewrite (mkdir_from_keeps _ _ _ _ _ Hm1); rewrite Hd; eauto.
    + replace (base ++ a :: b :: q1) with ((base ++ [a]) ++ b :: q1)
        by (by rewrite <- app_assoc).
      by apply (IH fs1 (base ++ [a]) fs' (b :: q1) q2).
Qed.

Lemma mkdir_from_new todo :
  forall (fs : filesystem) base fs' q,
    mkdir_from fs base todo = Ok fs' ->
    fs !! q = None ->
    fs' !! q = None \/
    (fs' !! q = Some Dir /\ exists q1 q2, q1 <> [] /\ todo = q1 ++ q2 /\
                                          q = base ++ q1).
Proof.
  induction todo as [|a todo IH]; intros fs base fs' q Hm Hq; simpl in Hm.
  - injection Hm as <-. by left.
  - assert (Hcase : forall fs1,
              mkdir_from fs1 (base ++ [a]) todo = Ok fs' ->
              fs1 !! q = None ->
              fs' !! q = None \/
              (fs' !! q = Some Dir /\
               exists q1 q2, q1 <> [] /\ a :: todo = q1 ++ q2 /\ q = base ++ q1)).
    { intros fs1 Hm1 Hq1.
      destruct (IH fs1 (base ++ [a]) fs' q Hm1 Hq1)
        as [?|(Hd & q1 & q2 & Hne & -> & ->)]; [by left|right].
      split; [done|]. exists (a :: q1), q2. split; [done|].
      split; [done|]. by rewrite <- app_assoc. }
    destruct (fs !! (base ++ [a])) as [[c|]|] eqn:Hq0; [done| |].
    + by apply (Hcase fs).
    + destruct (decide (q = base ++ [a])) as [->|Hne].
      * right. split.
        -- rewrite (mkdir_from_keeps _ _ _ _ _ Hm);
             rewrite lookup_insert_eq; eauto.
        -- exists [a], todo. auto.
      * apply (Hcase _ Hm). by rewrite lookup_insert_ne.
Qed.



Lemma mkdir_from_present todo :
  forall (fs : filesystem) base,
    (forall q1 q2, todo = q1 ++ q2 -> q1 <> [] ->
                   fs !! (base ++ q1) = Some Dir) ->
    mkdir_from fs base todo = Ok fs.
Proof.
  induction todo as [|a todo IH]; intros fs base Hall; simpl; [reflexivity|].
  assert (Ha : [a] <> []) by discriminate.
  rewrite (Hall [a] todo eq_refl Ha).
  apply IH. intros q1 q2 -> Hne. rewrite <- app_assoc. simpl.
  by apply (Hall (a :: q1) q2).
Qed.

(** X2: [ensure_dir] is idempotent: after a call that returned, a second
    call for the same path returns the same file system. *)
Theorem ensure_dir_idempotent (fs : filesystem) p fs' :
  ensure_dir fs p = Ok fs' -> ensure_dir fs' p = Ok fs'.
Proof.
  unfold ensure_dir. intros Hm. apply mkdir_from_present.
  intros q1 q2 -> Hne. by apply (mkdir_from_made _ _ _ _ q1 q2 Hm).
Qed.

Lemma ensure_dir_idempotent_witness :
  let fs : filesystem := {[ ["out"] := Dir ]} in
  let fs' := <[ ["out"; "a"] := Dir ]> fs in
  ensure_dir fs ["out"; "a"] = Ok fs' /\ ensure_dir fs' ["out"; "a"] = Ok fs'.
Proof.
  intros fs fs'.
  assert (Hm : ensure_dir fs ["out"; "a"] = Ok fs')
    by (vm_cast_no_check (eq_refl (Ok fs'))).
  split; [exact Hm|]. exact (ensure_dir_idempotent fs _ fs' Hm).
Defined.

Lemma mkdir_from_raise todo :
  forall (fs : filesystem) base e,
    mkdir_from fs base todo = Raise e ->
    exists q1 q2 c,
      q1 <> [] /\ todo = q1 ++ q2 /\ fs !! (base ++ q1) = Some (File c) /\
      e = match q2 with [] => FileExistsError | _ => NotADirectoryError end.
Proof.
  induction todo as [|a todo IH]; intros fs base e; simpl; [discriminate|].
  assert (Hcase : forall fs1,
            (forall q c, fs1 !! q = Some (File c) -> fs !! q = Some (File c)) ->
            mkdir_from fs1 (base ++ [a]) todo = Raise e ->
            exists q1 q2 c,
              q1 <> [] /\ a :: todo = q1 ++ q2 /\
              fs !! (base ++ q1) = Some (File c) /\
              e = match q2 with [] => FileExistsError | _ => NotADirectoryError end).
  { intros fs1 Hsub Hm.
    destruct (IH _ _ _ Hm) as (q1 & q2 & c & Hne & -> & Hq & ->).
    exists (a :: q1), q2, c. split; [done|]. split; [done|].
    split; [|done]. apply Hsub. by rewrite <- app_assoc in Hq. }
  destruct (fs !! (base ++ [a])) as [[c|]|] eqn:Hq0.
  - intros [= <-]. exists [a], todo, c. auto.
  - by apply (Hcase fs).
  - apply (Hcase (<[base ++ [a] := Dir]> fs)). intros q c Hq.
    destruct (decide (base ++ [a] = q)) as [<-|Hne].
    + by rewrite lookup_insert_eq in Hq.
    + by rewrite lookup_insert_ne in Hq.
Qed.

Lemma mkdir_from_no_file todo :
  forall (fs : filesystem) base,
    (forall q1 q2 c, todo = q1 ++ q2 -> q1 <> [] ->
                     fs !! (base ++ q1) <> Some (File c)) ->
    exists fs', mkdir_from fs base todo = Ok fs'.
Proof.
  intros fs base Hno.
  destruct (mkdir_from fs base todo) as [fs'|e] eqn:Hm; [eauto|].
  destruct (mkdir_from_raise _ _ _ _ Hm) as (q1 & q2 & c & Hne & Heq & Hq & _).
  by destruct (Hno q1 q2 c Heq Hne).
Qed.



(* ===================================================================== *)
(** * The file system stays well formed *)
(* ===================================================================== *)

Lemma mkdir_from_wf todo :
  forall (fs : filesystem) base fs',
    fs_wf fs -> base = [] \/ fs !! base = Some Dir ->
    mkdir_from fs base todo = Ok fs' -> fs_wf fs'.
Proof.
  induction todo as [|a todo IH]; intros fs base fs' Hwf Hbase; simpl.
  - by intros [= <-].
  - destruct (fs !! (base ++ [a])) as [[c|]|] eqn:Hq0; [discriminate| |].
    + apply IH; auto.
    + apply IH; [|right; apply lookup_insert_eq].
      intros p x Hsome Hp.
      destruct (decide (base ++ [a] = p ++ [x])) as [Heq|Hne].
      * apply app_inj_tail in Heq as [<- <-].
        destruct Hbase as [->|Hb]; [congruence|].
        rewrite lookup_insert_ne; [exact Hb|].
        intros H. apply (f_equal List.length) in H.
        rewrite length_app in H. simpl in H. lia.
      * rewrite lookup_insert_ne in Hsome by exact Hne.
        pose proof (Hwf p x Hsome Hp) as Hd.
        rewrite lookup_insert_ne; [exact Hd|].
        intros <-. rewrite Hq0 in Hd. discriminate.
Qed.

Lemma write_text_inv (fs : filesystem) p content fs' :
  write_text fs p content = Ok fs' ->
  p <> [] /\ fs !! p <> Some Dir /\
  (parent p = [] \/ fs !! parent p = Some Dir) /\
  fs' = <[p := File content]> fs.
Proof.
  intros Hw. pose proof (write_text_Ok _ _ _ _ Hw) as ->.
  revert Hw. unfold write_text. destruct p as [|a p]; [discriminate|].
  split; [discriminate|]. revert Hw. generalize (a :: p). intros q Hw.
  split; [|split].
  - intros Hd. rewrite Hd in Hw. discriminate.
  - destruct (fs !! q) as [[c|]|]; [|discriminate|];
      (destruct (parent q) as [|b d]; [by left|]);
      (destruct (fs !! (b :: d)) as [[c'|]|]; [discriminate| |discriminate]);
      by right.
  - reflexivity.
Qed.

Lemma write_text_wf (fs : filesystem) p content fs' :
  fs_wf fs -> write_text fs p content = Ok fs' -> fs_wf fs'.
Proof.
  intros Hwf (Hp & Hnd & Hpar & ->)%write_text_inv q x Hsome Hq.
  destruct (decide (p = q ++ [x])) as [Heq|Hne].
  - assert (Hparent : parent p = q).
    { rewrite Heq. unfold parent. apply removelast_last. }
    rewrite Hparent in Hpar. destruct Hpar as [->|Hd]; [congruence|].
    rewrite lookup_insert_ne; [exact Hd|].
    rewrite Heq. intros H. apply (f_equal List.length) in H.
    rewrite length_app in H. simpl in H. lia.
  - rewrite lookup_insert_ne in Hsome by exact Hne.
    pose proof (Hwf q x Hsome Hq) as Hd.
    rewrite lookup_insert_ne; [exact Hd|]. by intros ->.
Qed.

Section RunInvariant.
Variable safe_load : string -> result (store * val).
Variable render : filesystem -> path -> store -> dict val -> result string.

Lemma render_one_wf st context t o w p w' :
  fs_wf (w_fs w) ->
  render_one render st context t o w p = Ok w' -> fs_wf (w_fs w').
Proof.
  intros Hwf. unfold render_one.
  destruct (strip_prefix t p) as [rel|]; [|discriminate]. simpl.
  destruct (render _ rel st context) as [output|]; [|discriminate]. simpl.
  destruct (target_path_for rel o) as [out_path|]; [|discriminate]. simpl.
  destruct (ensure_dir (w_fs w) (parent out_path)) as [fs1|] eqn:Hm;
    [|discriminate]. simpl.
  destruct (write_text fs1 out_path (file_text output)) as [fs2|] eqn:Hw;
    [|discriminate]. simpl.
  intros [= <-]. simpl. apply (write_text_wf _ _ _ _ ltac:(
    exact (mkdir_from_wf _ _ _ _ Hwf (or_introl eq_refl) Hm)) Hw).
Qed.

Lemma render_loop_wf st context t o tpls :
  forall w w',
    fs_wf (w_fs w) ->
    render_loop render st context t o w tpls = Ok w' -> fs_wf (w_fs w').
Proof.
  induction tpls as [|p tpls IH]; intros w w' Hwf; simpl.
  - by intros [= <-].
  - destruct (render_one render st context t o w p) as [w1|] eqn:H1;
      [|discriminate]. simpl.
    apply IH. by apply (render_one_wf _ _ _ _ _ _ _ Hwf H1).
Qed.

End RunInvariant.

Lemma fs_wf_check_sound (fs : filesystem) : fs_wf_check fs = true -> fs_wf fs.
Proof.
  unfold fs_wf_check. rewrite forallb_forall. intros Hall p a [n Hn] Hp.
  specialize (Hall (p ++ [a], n)). simpl in Hall.
  rewrite removelast_last in Hall.
  destruct p as [|b p]; [congruence|].
  destruct (fs !! (b :: p)) as [[c|]|] eqn:Hd.
  - discriminate Hall. apply list_elem_of_In. by apply elem_of_map_to_list.
  - reflexivity.
  - discriminate Hall. apply list_elem_of_In. by apply elem_of_map_to_list.
Qed.


(* ===================================================================== *)
(** * More on [set_deep_value] and [apply_overrides] *)
(* ===================================================================== *)

Lemma keys_dict_set {V} (d : dict V) k v x :
  In x (keys (dict_set d k v)) <-> x = k \/ In x (keys d).
Proof.
  unfold keys. induction d as [|[k' v'] d IH]; simpl.
  - split; [intros [<-|[]]; auto | intros [->|[]]; auto].
  - destruct (String.eqb k' k) eqn:E; simpl.
    + apply String.eqb_eq in E. subst k'. split; [tauto|].
      intros [->|[<-|?]]; auto.
    + rewrite IH. tauto.
Qed.

Lemma store_le_refl st : store_le st st.
Proof. split; [lia | auto]. Qed.

Lemma store_le_trans st1 st2 st3 :
  store_le st1 st2 -> store_le st2 st3 -> store_le st1 st3.
Proof. intros [H1 K1] [H2 K2]. split; [lia | auto]. Qed.

Lemma store_le_setitem st l k v : store_le st (setitem st l k v).
Proof.
  split; [rewrite length_setitem; lia|]. intros x key Hin.
  destruct (decide (x = l)) as [->|Hne].
  - destruct (decide (l < List.length st)%nat) as [Hl|Hl].
    + rewrite obj_setitem_eq by done. apply keys_dict_set. auto.
    + unfold setitem. rewrite list_insert_ge by lia. done.
  - unfold obj. by rewrite lookup_setitem_ne.
Qed.

Lemma store_le_alloc st d : store_le st (st ++ [d]).
Proof.
  split; [rewrite length_app; lia|]. intros x key Hin. unfold obj in *.
  destruct (decide (x < List.length st)%nat) as [Hx|Hx].
  - by rewrite lookup_app_l.
  - assert (E : st !! x = None) by (apply lookup_ge_None_2; lia).
    unfold dict in *. rewrite E in Hin. destruct Hin.
Qed.

(** From a dict the walk always arrives at a dict. *)
Lemma descend_from_dict keys :
  forall st l,
    exists st1 l1,
      descend st (VRef l) keys = Ok (st1, VRef l1) /\ store_le st st1.
Proof.
  induction keys as [|key keys IH]; intros st l; simpl.
  - exists st, l. split; [done | apply store_le_refl].
  - assert (Hnew : exists st1 l1,
             descend (setitem (st ++ [[]]) l key (VRef (List.length st)))
               (VRef (List.length st)) keys = Ok (st1, VRef l1) /\
             store_le st st1).
    { destruct (IH (setitem (st ++ [[]]) l key (VRef (List.length st)))
                  (List.length st)) as (st1 & l1 & Hd & Hle).
      exists st1, l1. split; [done|].
      eapply store_le_trans; [apply store_le_alloc|].
      eapply store_le_trans; [apply store_le_setitem | exact Hle]. }
    destruct (dict_get (obj st l) key) as [[s|items|l']|]; try exact Hnew.
    apply IH.
Qed.

Lemma descend_not_dict st target keys :
  is_mapping target = false -> keys <> [] ->
  descend st target keys = Raise TypeError.
Proof. intros Ht Hk. destruct keys; [done|]. by destruct target. Qed.

Lemma set_deep_value_dict_Ok st l dotted_path value :
  exists st', set_deep_value st (VRef l) dotted_path value = Ok st'.
Proof.
  unfold set_deep_value.
  destruct (descend_from_dict (removelast (Py.split "." dotted_path)) st l)
    as (st1 & l1 & -> & _). simpl. eauto.
Qed.

Lemma set_deep_value_not_dict st target dotted_path value :
  is_mapping target = false ->
  set_deep_value st target dotted_path value = Raise TypeError.
Proof.
  intros Ht. unfold set_deep_value.
  destruct (removelast (Py.split "." dotted_path)) as [|k ks] eqn:Hk.
  - simpl. by destruct target.
  - rewrite (descend_not_dict st target (k :: ks) Ht); done.
Qed.

(** X5: [set_deep_value] returns exactly on a dict: on a dict target it
    returns for every store, path and value, and on any other target it
    raises TypeError. *)
Theorem set_deep_value_result st target dotted_path value :
  (is_mapping target = true ->
   exists st', set_deep_value st target dotted_path value = Ok st') /\
  (is_mapping target = false ->
   set_deep_value st target dotted_path value = Raise TypeError).
Proof.
  split; intros Ht.
  - destruct target as [s|items|l]; try discriminate.
    apply set_deep_value_dict_Ok.
  - by apply set_deep_value_not_dict.
Qed.

Lemma set_deep_value_result_witness :
  (exists st', set_deep_value [[("a", VScalar (SInt 1))]] (VRef 0%nat)
                 "a.b..c" "x" = Ok st') /\
  set_deep_value [] (VSeq [VScalar (SStr "a")]) "a" "x" = Raise TypeError /\
  set_deep_value [] (VScalar SNone) "a.b" "x" = Raise TypeError.
Proof.
  split; [|split].
  - apply (proj1 (set_deep_value_result _ (VRef 0%nat) "a.b..c" "x")).
    reflexivity.
  - apply (proj2 (set_deep_value_result _ (VSeq _) "a" "x")). reflexivity.
  - apply (proj2 (set_deep_value_result _ (VScalar SNone) "a.b" "x")).
    reflexivity.
Defined.

Lemma set_deep_value_le st target dotted_path value st' :
  set_deep_value st target dotted_path value = Ok st' -> store_le st st'.
Proof.
  unfold set_deep_value. destruct target as [s|items|l].
  - destruct (removelast (Py.split "." dotted_path)); discriminate.
  - destruct (removelast (Py.split "." dotted_path)); discriminate.
  - destruct (descend_from_dict (removelast (Py.split "." dotted_path)) st l)
      as (st1 & l1 & -> & Hle). simpl. intros [= <-].
    eapply store_le_trans; [exact Hle | apply store_le_setitem].
Qed.

(** X6: overrides only add and replace: after [apply_overrides] no object
    of the store is lost and every dict object has all the keys it had; in
    particular every top-level key of the configuration is still there. *)
Theorem apply_overrides_keeps_keys overrides :
  forall st data st',
    apply_overrides st data overrides = Ok st' ->
    (List.length st <= List.length st')%nat /\
    forall x k, In k (keys (obj st x)) -> In k (keys (obj st' x)).
Proof.
  induction overrides as [|item rest IH]; intros st data st'; simpl.
  - intros [= <-]. apply store_le_refl.
  - destruct (Py.contains "=" item); simpl; [|apply IH].
    destruct (Py.split_once "=" item) as [[p v]|]; [|discriminate].
    destruct (set_deep_value st data (Py.strip p) v) as [st1|] eqn:Hs;
      [|discriminate]. simpl. intros Hr.
    exact (store_le_trans _ _ _ (set_deep_value_le _ _ _ _ _ Hs) (IH _ _ _ Hr)).
Qed.

Lemma apply_overrides_keeps_keys_witness :
  let st := [[("name", VScalar (SStr "Widget")); ("seo", VRef 1%nat)];
             [("title", VScalar (SStr "old"))]] in
  let st' := [[("name", VRef 2%nat); ("seo", VScalar (SStr "flat"))];
              [("title", VScalar (SStr "old"))];
              [("first", VScalar (SStr "W"))]] in
  apply_overrides st (VRef 0%nat) ["seo=flat"; "name.first=W"] = Ok st' /\
  In "seo" (keys (obj st' 0%nat)) /\ In "title" (keys (obj st' 1%nat)).
Proof.
  intros st st'.
  assert (Hrun : apply_overrides st (VRef 0%nat) ["seo=flat"; "name.first=W"]
                 = Ok st') by (vm_compute; reflexivity).
  split; [exact Hrun|].
  destruct (apply_overrides_keeps_keys _ st (VRef 0%nat) st' Hrun) as [_ Hk].
  split; apply Hk; simpl; auto.
Defined.

Lemma apply_overrides_mapping_Ok overrides :
  forall st l, exists st', apply_overrides st (VRef l) overrides = Ok st'.
Proof.
  induction overrides as [|item rest IH]; intros st l; simpl; [eauto|].
  destruct (Py.contains "=" item) eqn:Hc; simpl; [|apply IH].
  destruct (Py.split_once "=" item) as [[p v]|] eqn:Hs.
  - destruct (set_deep_value_dict_Ok st l (Py.strip p) v) as [st1 ->].
    simpl. apply IH.
  - apply split_once_contains in Hs. congruence.
Qed.

Lemma apply_overrides_not_mapping st data overrides :
  is_mapping data = false ->
  apply_overrides st data overrides
  = if existsb (Py.contains "=") overrides then Raise TypeError else Ok st.
Proof.
  intros Hd. induction overrides as [|item rest IH]; simpl; [done|].
  destruct (Py.contains "=" item) eqn:Hc; simpl; [|exact IH].
  destruct (Py.split_once "=" item) as [[p v]|] eqn:Hs.
  - by rewrite (set_deep_value_not_dict st data (Py.strip p) v Hd).
  - apply split_once_contains in Hs. congruence.
Qed.

(** X7: [apply_overrides] on a configuration that is not a mapping raises
    TypeError as soon as one entry contains [=], and returns the store
    unchanged when none does; on a mapping it always returns. *)
Theorem apply_overrides_result st data overrides :
  (is_mapping data = true ->
   exists st', apply_overrides st data overrides = Ok st') /\
  (is_mapping data = false ->
   apply_overrides st data overrides
   = if existsb (Py.contains "=") overrides then Raise TypeError else Ok st).
Proof.
  split; intros Hd.
  - destruct data as [s|items|l]; try discriminate.
    apply apply_overrides_mapping_Ok.
  - by apply apply_overrides_not_mapping.
Qed.

Lemma apply_overrides_result_witness :
  apply_overrides [] (VSeq [VScalar (SStr "a")]) ["note"; "a.b=1"; "c=2"]
  = Raise TypeError /\
  apply_overrides [] (VScalar (SStr "text")) ["note"] = Ok [] /\
  exists st', apply_overrides [[]] (VRef 0%nat) ["=x"; "a..=y"] = Ok st'.
Proof.
  split; [|split].
  - exact (proj2 (apply_overrides_result [] (VSeq [VScalar (SStr "a")])
                    ["note"; "a.b=1"; "c=2"]) eq_refl).
  - exact (proj2 (apply_overrides_result [] (VScalar (SStr "text")) ["note"])
             eq_refl).
  - exact (proj1 (apply_overrides_result [[]] (VRef 0%nat) ["=x"; "a..=y"])
             eq_refl).
Defined.

(** X8: applying a list of overrides is applying its first part and then
    the rest from the store that is left; an error in the first part is the
    error of the whole. *)
Theorem apply_overrides_app st data l1 l2 :
  apply_overrides st data (l1 ++ l2)
  = let* st1 := apply_overrides st data l1 in apply_overrides st1 data l2.
Proof.
  revert st. induction l1 as [|item l1 IH]; intros st; simpl; [done|].
  destruct (Py.contains "=" item); simpl; [|apply IH].
  destruct (Py.split_once "=" item) as [[p v]|]; [|done].
  destruct (set_deep_value st data (Py.strip p) v) as [st1|]; simpl;
    [apply IH | done].
Qed.

(** X9: a dict object that two keys share is changed in place: an override
    through one key is seen through the other. *)
Theorem set_deep_value_shared st root l a b k dotted_path value :
  Py.split "." dotted_path = [a; k] ->
  root <> l -> (l < List.length st)%nat ->
  dict_get (obj st root) a = Some (VRef l) ->
  dict_get (obj st root) b = Some (VRef l) ->
  set_deep_value st (VRef root) dotted_path value
  = Ok (setitem st l k (VScalar (SStr value))) /\
  dict_get (obj (setitem st l k (VScalar (SStr value))) root) b
  = Some (VRef l) /\
  dict_get (obj (setitem st l k (VScalar (SStr value))) l) k
  = Some (VScalar (SStr value)).
Proof.
  intros Hsplit Hne Hl Ha Hb. unfold set_deep_value. rewrite Hsplit.
  simpl. rewrite Ha. simpl. split; [done|]. split.
  - unfold obj. rewrite lookup_setitem_ne by done. exact Hb.
  - rewrite obj_setitem_eq by done. apply dict_get_set_eq.
Qed.

Lemma set_deep_value_shared_witness :
  let st := [[("a", VRef 1%nat); ("b", VRef 1%nat)];
             [("k", VScalar (SInt 1))]] in
  let st' := [[("a", VRef 1%nat); ("b", VRef 1%nat)];
              [("k", VScalar (SStr "2"))]] in
  set_deep_value st (VRef 0%nat) "a.k" "2" = Ok st' /\
  dict_get (obj st' 0%nat) "b" = Some (VRef 1%nat) /\
  dict_get (obj st' 1%nat) "k" = Some (VScalar (SStr "2")).
Proof.
  intros st st'.
  assert (Hl : (1 < List.length st)%nat) by (simpl; lia).
  assert (Hne : 0%nat <> 1%nat) by discriminate.
  exact (set_deep_value_shared st 0%nat 1%nat "a" "b" "k" "a.k" "2"
           eq_refl Hne Hl eq_refl eq_refl).
Defined.

(* ===================================================================== *)
(** * More on the whole run *)
(* ===================================================================== *)

Lemma fs_le_refl (fs : filesystem) : fs_le fs fs.
Proof. intros q. destruct (fs !! q) as [[c|]|]; eauto. Qed.

Lemma fs_le_trans (fs1 fs2 fs3 : filesystem) :
  fs_le fs1 fs2 -> fs_le fs2 fs3 -> fs_le fs1 fs3.
Proof.
  intros H12 H23 q. specialize (H12 q). specialize (H23 q).
  destruct (fs1 !! q) as [[c|]|]; [| |done].
  - destruct H12 as [c' Hc]. by rewrite Hc in H23.
  - by rewrite H12 in H23.
Qed.

Lemma mkdir_from_le (todo : path) :
  forall (fs : filesystem) (base : path) (fs' : filesystem),
    mkdir_from fs base todo = Ok fs' -> fs_le fs fs'.
Proof.
  intros fs base fs' Hm q. destruct (fs !! q) as [[c|]|] eqn:Hq; [| |done].
  - exists c. rewrite (mkdir_from_keeps _ _ _ _ q Hm); rewrite Hq; eauto.
  - rewrite (mkdir_from_keeps _ _ _ _ q Hm); rewrite Hq; eauto.
Qed.

Lemma write_text_le (fs : filesystem) p content fs' :
  write_text fs p content = Ok fs' -> fs_le fs fs'.
Proof.
  intros (_ & Hnd & _ & ->)%write_text_inv q.
  destruct (decide (p = q)) as [->|Hne].
  - rewrite lookup_insert_eq. destruct (fs !! q) as [[c|]|]; eauto. done.
  - rewrite lookup_insert_ne by done. destruct (fs !! q) as [[c|]|]; eauto.
Qed.

Section RunFacts.
Variable safe_load : string -> result (store * val).
Variable render : filesystem -> path -> store -> dict val -> result string.

Lemma render_one_le st context t o w p w' :
  render_one render st context t o w p = Ok w' ->
  fs_le (w_fs w) (w_fs w') /\ w_err w' = w_err w.
Proof.
  unfold render_one.
  destruct (strip_prefix t p) as [rel|]; [|discriminate]. simpl.
  destruct (render _ rel st context) as [output|]; [|discriminate]. simpl.
  destruct (target_path_for rel o) as [out_path|]; [|discriminate]. simpl.
  destruct (ensure_dir (w_fs w) (parent out_path)) as [fs1|] eqn:Hm;
    [|discriminate]. simpl.
  destruct (write_text fs1 out_path (file_text output)) as [fs2|] eqn:Hw;
    [|discriminate]. simpl.
  intros [= <-]. simpl. split; [|done].
  exact (fs_le_trans _ _ _ (mkdir_from_le _ _ _ _ Hm) (write_text_le _ _ _ _ Hw)).
Qed.

Lemma render_loop_le st context t o tpls :
  forall w w',
    render_loop render st context t o w tpls = Ok w' ->
    fs_le (w_fs w) (w_fs w') /\ w_err w' = w_err w.
Proof.
  induction tpls as [|p tpls IH]; intros w w'; simpl.
  - intros [= <-]. split; [apply fs_le_refl | done].
  - destruct (render_one render st context t o w p) as [w1|] eqn:H1;
      [|discriminate]. simpl. intros Hl.
    destruct (render_one_le _ _ _ _ _ _ _ H1) as [Hle1 He1].
    destruct (IH _ _ Hl) as [Hle He].
    split; [exact (fs_le_trans _ _ _ Hle1 Hle) | congruence].
Qed.

(** What a run of [main] that returns went through. *)
Lemma main_Ok_inv w args w' code :
  main safe_load render w args = Ok (w', code) ->
  (code = 2 /\
   (path_exists (w_fs w) (arg_product args) = false \/
    path_exists (w_fs w) (arg_templates args) = false) /\
   w_fs w' = w_fs w /\ w_out w' = w_out w) \/
  (code = 0 /\
   path_exists (w_fs w) (arg_product args) = true /\
   path_exists (w_fs w) (arg_templates args) = true /\
   exists st data st',
     load_yaml safe_load (w_fs w) (arg_product args) = Ok (st, data) /\
     apply_overrides st data (arg_overrides args) = Ok st' /\
     render_all render w st' data (arg_templates args) (arg_out args) = Ok w').
Proof.
  unfold main.
  destruct (path_exists (w_fs w) (arg_product args)); simpl;
    [|intros [= <- <-]; left; auto].
  destruct (path_exists (w_fs w) (arg_templates args)); simpl;
    [|intros [= <- <-]; left; auto].
  destruct (load_yaml safe_load (w_fs w) (arg_product args))
    as [[st data]|]; [|discriminate]. simpl.
  destruct (apply_overrides st data (arg_overrides args)) as [st'|] eqn:Ha;
    [|discriminate]. simpl.
  destruct (render_all render w st' data (arg_templates args) (arg_out args))
    as [w1|] eqn:Hr; [|discriminate]. simpl. intros [= <- <-].
  right. split; [done|]. split; [done|]. split; [done|].
  exists st, data, st'. auto.
Qed.


(** X11: a run of [main] that returns has removed nothing and has changed
    the kind of nothing: every directory is still a directory and every
    file is still a file. *)
Theorem main_removes_nothing w args w' code :
  main safe_load render w args = Ok (w', code) ->
  (forall q, w_fs w !! q = Some Dir -> w_fs w' !! q = Some Dir) /\
  (forall q c, w_fs w !! q = Some (File c) ->
               exists c', w_fs w' !! q = Some (File c')).
Proof.
  intros Hrun.
  assert (Hle : fs_le (w_fs w) (w_fs w')).
  { apply main_Ok_inv in Hrun
      as [(_ & _ & -> & _)|(_ & _ & _ & st & data & st' & _ & _ & Hr)];
      [apply fs_le_refl|].
    destruct (render_all_Ok _ _ _ _ _ _ _ Hr) as (fs0 & l & Hm & _ & Hl).
    apply render_loop_le in Hl as [Hl _]. simpl in Hl.
    exact (fs_le_trans _ _ _ (mkdir_from_le _ _ _ _ Hm) Hl). }
  split.
  - intros q Hq. specialize (Hle q). by rewrite Hq in Hle.
  - intros q c Hq. specialize (Hle q). by rewrite Hq in Hle.
Qed.

(** X12: a product document that is true as a value and is not a mapping
    (a sequence, a string, a number) never renders: with both inputs in
    place [main] raises, either TypeError, from the first applied override
    or from building the context, or the error of making the output root. *)
Theorem main_not_mapping_raises w args content st parsed :
  path_exists (w_fs w) (arg_templates args) = true ->
  w_fs w !! arg_product args = Some (File content) ->
  safe_load content = Ok (st, parsed) ->
  truthy st parsed = true -> is_mapping parsed = false ->
  exists e,
    main safe_load render w args = Raise e /\
    (e = TypeError \/ ensure_dir (w_fs w) (arg_out args) = Raise e).
Proof.
  intros Ht Hp Hl Htrue Hmap. unfold main.
  assert (Hex : path_exists (w_fs w) (arg_product args) = true).
  { unfold path_exists. destruct (arg_product args); [done|].
    apply bool_decide_eq_true. rewrite Hp. eauto. }
  rewrite Hex, Ht. simpl. unfold load_yaml. rewrite Hp, Hl. simpl.
  rewrite (or_empty_dict_truthy _ _ Htrue). simpl.
  destruct (apply_overrides st parsed (arg_overrides args)) as [st'|e] eqn:Ha.
  - simpl. unfold render_all.
    destruct (ensure_dir (w_fs w) (arg_out args)) as [fs0|e]; simpl.
    + exists TypeError. split; [|by left]. by destruct parsed.
    + exists e. auto.
  - simpl. exists e. split; [done|]. left.
    pose proof (apply_overrides_not_mapping st parsed (arg_overrides args) Hmap)
      as Hr.
    rewrite Ha in Hr.
    destruct (existsb (Py.contains "=") (arg_overrides args)); congruence.
Qed.
End RunFacts.


Lemma main_removes_nothing_witness :
  let args := Arguments ["product.yaml"] ["t"] ["out"] [] in
  let w := World (<[ ["out"; "c.txt"] := File "stale" ]>
                    (<[ ["out"] := Dir ]> example_fs)) [] [] in
  exists w',
    main example_safe_load example_render w args = Ok (w', 0) /\
    w_fs w' !! ["t"; "a"] = Some Dir /\
    exists c', w_fs w' !! ["out"; "c.txt"] = Some (File c').
Proof.
  intros args w.
  pose (w' := World
          (<[ ["out"; "c.txt"] := File ("{{ name }}" +:+ Py.newline) ]>
             (<[ ["out"; "a"; "b.html"] :=
                   File ("<p>{{ name }}</p>" +:+ Py.newline) ]>
                (<[ ["out"; "a"] := Dir ]>
                   (<[ ["out"; "c.txt"] := File "stale" ]>
                      (<[ ["out"] := Dir ]> example_fs)))))
          ["Wrote out/a/b.html"; "Wrote out/c.txt"] []).
  assert (Hrun : main example_safe_load example_render w args = Ok (w', 0))
    by (vm_cast_no_check (eq_refl (Ok (w', 0)))).
  exists w'. split; [exact Hrun|].
  destruct (main_removes_nothing _ _ _ _ _ _ Hrun) as [Hdirs Hfiles].
  split.
  - apply Hdirs. unfold w. simpl w_fs.
    rewrite !lookup_insert_ne by discriminate. reflexivity.
  - apply (Hfiles _ "stale"). unfold w. simpl w_fs.
    apply lookup_insert_eq.
Defined.

Lemma main_not_mapping_raises_witness :
  let safe_load := fun text : string =>
    if String.eqb text "- a"
    then Ok ([] : store, VSeq [VScalar (SStr "a")])
    else Raise ParseError in
  let w := World {[ ["product.yaml"] := File "- a"; ["t"] := Dir ]} [] [] in
  let args := Arguments ["product.yaml"] ["t"] ["out"] [] in
  main safe_load example_render w args = Raise TypeError.
Proof.
  intros safe_load w args.
  destruct (main_not_mapping_raises safe_load example_render w args "- a" []
              (VSeq [VScalar (SStr "a")]))
    as (e & Hrun & He);
    [reflexivity | reflexivity | reflexivity | reflexivity | reflexivity |].
  rewrite Hrun. destruct He as [->|He]; [reflexivity|].
  assert (Hm : ensure_dir (w_fs w) (arg_out args)
               = Ok (<[ ["out"] := Dir ]> (w_fs w)))
    by (vm_cast_no_check
          (eq_refl (Ok (<[ ["out"] := Dir ]> (w_fs w)) : result filesystem))).
  rewrite Hm in He. discriminate.
Defined.

(* ===================================================================== *)
(** * More on target paths and the filters *)
(* ===================================================================== *)

Lemma name_last dirs n : name (dirs ++ [n]) = n.
Proof. unfold name. apply last_last. Qed.

Lemma string_take_all s : Py.take (String.length s) s = s.
Proof.
  rewrite <- (string_app_nil_r s) at 2. apply string_take_app.
Qed.

Lemma string_length_take n :
  forall s, (String.length (Py.take n s) <= n)%nat.
Proof.
  unfold Py.take. induction n as [|n IH]; intros [|a s]; simpl; try lia.
  specialize (IH s). lia.
Qed.



(** X14: the filter [year] returns the empty string or at most four
    characters that are all digits for [str.isdigit]; the year of a date lies
    between 1 and 9999. *)
Theorem to_year_digits value :
  (forall y, date_year value = Some y -> 1 <= y <= 9999) ->
  to_year value = "" \/
  (Py.isdigit (to_year value) = true /\
   (String.length (to_year value) <= 4)%nat).
Proof.
  intros Hy.
  assert (Hdate : forall y, 1 <= y <= 9999 ->
            Py.isdigit (Py.str_of_int y) = true /\
            (String.length (Py.str_of_int y) <= 4)%nat).
  { intros y Hr.
    pose proof (str_of_int_range
                  (fun s => Py.isdigit s && (String.length s <=? 4)%nat)
                  1 10000 ltac:(vm_compute; reflexivity) y ltac:(lia)) as H.
    apply andb_true_iff in H as [H1 H2]. apply Nat.leb_le in H2. auto. }
  destruct value as [[| | |s|y m d|y m d h mi sec]| |]; unfold to_year;
    try (by left).
  - destruct ((4 <=? String.length s)%nat && Py.isdigit (Py.take 4 s)) eqn:E;
      [|by left].
    right. apply andb_true_iff in E as [_ E]. split; [exact E|].
    apply string_length_take.
  - right. apply Hdate, Hy. reflexivity.
  - right. apply Hdate, Hy. reflexivity.
Qed.

Lemma to_year_digits_witness :
  Py.isdigit (to_year (VScalar (SDate 476 9 4))) = true /\
  (String.length (to_year (VScalar (SDate 476 9 4))) <= 4)%nat.
Proof.
  destruct (to_year_digits (VScalar (SDate 476 9 4))) as [H|H].
  - intros y [= <-]. lia.
  - discriminate H.
  - exact H.
Defined.

(* ===================================================================== *)
(** * The loader and the overrides together *)
(* ===================================================================== *)

(** X15: a product document that counts as false (an empty file, [null],
    [{}], [[]], [0]) is loaded as a new empty mapping, and the overrides
    applied to it give the configuration that holds the overrides and
    nothing else. *)
Theorem load_yaml_falsy_then_overrides
    (safe_load : string -> result (store * val)) (fs : filesystem) (p : path)
    content st parsed overrides :
  fs !! p = Some (File content) ->
  safe_load content = Ok (st, parsed) ->
  truthy st parsed = false ->
  exists st0 l st',
    load_yaml safe_load fs p = Ok (st0, VRef l) /\
    obj st0 l = [] /\
    apply_overrides st0 (VRef l) overrides = Ok st' /\
    tree_at st' (VRef l) (TMap (spec_apply_overrides [] overrides)).
Proof.
  intros Hp Hl Hf. unfold load_yaml. rewrite Hp, Hl. simpl.
  rewrite (or_empty_dict_falsy _ _ Hf).
  assert (Hobj : obj (st ++ [[]]) (List.length st) = []).
  { unfold obj. rewrite lookup_app_r; [|done]. by rewrite Nat.sub_diag. }
  assert (Ht : tree_at (st ++ [[]]) (VRef (List.length st)) (TMap [])).
  { exists [List.length st]. split; [|apply NoDup_singleton].
    exists (List.length st), []. split; [done|]. split; [done|].
    split; [rewrite length_app; simpl; lia|]. by rewrite Hobj. }
  destruct (apply_overrides_tree overrides _ _ _ Ht) as (st' & Ha & Ht').
  exists (st ++ [[]]), (List.length st), st'. auto.
Qed.

Lemma load_yaml_falsy_then_overrides_witness :
  let safe_load := fun text : string =>
    if String.eqb text "" then Ok ([] : store, VScalar SNone)
    else Raise ParseError in
  exists st',
    load_yaml safe_load {[ ["product.yaml"] := File "" ]} ["product.yaml"]
    = Ok ([[]], VRef 0%nat) /\
    apply_overrides [[]] (VRef 0%nat) ["seo.title=Hi"; "name=W"] = Ok st' /\
    tree_at st' (VRef 0%nat)
      (TMap [("seo", TMap [("title", TScalar (SStr "Hi"))]);
             ("name", TScalar (SStr "W"))]).
Proof.
  intros safe_load.
  assert (Hp : ({[ ["product.yaml"] := File "" ]} : filesystem)
               !! ["product.yaml"] = Some (File "")) by reflexivity.
  assert (Hs : safe_load "" = Ok ([], VScalar SNone)) by reflexivity.
  destruct (load_yaml_falsy_then_overrides safe_load
              {[ ["product.yaml"] := File "" ]} ["product.yaml"] "" []
              (VScalar SNone) ["seo.title=Hi"; "name=W"] Hp Hs eq_refl)
    as (st0 & l & st' & Hload & _ & Ha & Ht).
  assert (Hl : load_yaml safe_load {[ ["product.yaml"] := File "" ]}
                 ["product.yaml"] = Ok ([[]], VRef 0%nat)) by reflexivity.
  rewrite Hl in Hload. injection Hload as <- <-.
  exists st'. split; [exact Hl|]. split; [exact Ha | exact Ht].
Defined.

(* ===================================================================== *)
(** * The merged query parameters of [with_utm] *)
(* ===================================================================== *)

Section DictUpdate.
Context {V : Type}.
Implicit Types (d e : dict V) (k : string).

Lemma dict_get_set d k k' (v : V) :
  dict_get (dict_set d k v) k'
  = if String.eqb k k' then Some v else dict_get d k'.
Proof.
  destruct (String.eqb_spec k k') as [->|Hne].
  - apply dict_get_set_eq.
  - by apply dict_get_set_ne.
Qed.

(** [{**d, **e}]: a key of [e] has the value written last for it in [e],
    every other key its value in [d]. *)
Lemma dict_get_update e :
  forall d k,
    dict_get (dict_update d e) k
    = match assoc_last e k with
      | Some v => Some v
      | None => dict_get d k
      end.
Proof.
  unfold dict_update. induction e as [|[k' v] e IH]; intros d k; simpl;
    [done|].
  rewrite IH. destruct (assoc_last e k); [done|]. simpl.
  rewrite dict_get_set. by destruct (String.eqb k' k).
Qed.

Lemma dict_get_None_keys d k : dict_get d k = None <-> ~ In k (keys d).
Proof.
  unfold keys. induction d as [|[k' v] d IH]; simpl; [tauto|].
  destruct (String.eqb_spec k' k) as [->|Hne].
  - split; [done|]. intros H. exfalso. auto.
  - rewrite IH. tauto.
Qed.

Lemma dict_set_keys_NoDup d k (v : V) :
  NoDup (keys d) -> NoDup (keys (dict_set d k v)).
Proof.
  unfold keys. induction d as [|[k' v'] d IH]; simpl; intros Hnd.
  - apply NoDup_singleton.
  - apply NoDup_cons in Hnd as [Hk Hnd].
    destruct (String.eqb_spec k' k) as [->|Hne]; simpl.
    + by apply NoDup_cons.
    + apply NoDup_cons. split; [|by apply IH].
      intros Hin%list_elem_of_In. apply (keys_dict_set d k v k') in Hin.
      destruct Hin as [->|Hin]; [done|].
      by apply Hk, list_elem_of_In.
Qed.

Lemma dict_update_keys_NoDup e :
  forall d, NoDup (keys d) -> NoDup (keys (dict_update d e)).
Proof.
  unfold dict_update. induction e as [|[k v] e IH]; intros d Hnd; simpl;
    [done|].
  by apply IH, dict_set_keys_NoDup.
Qed.

(** In a dict, which has every key once, the last value is the value. *)
Lemma assoc_last_dict d k :
  NoDup (keys d) -> assoc_last d k = dict_get d k.
Proof.
  unfold keys. induction d as [|[k' v] d IH]; simpl; intros Hnd; [done|].
  apply NoDup_cons in Hnd as [Hk Hnd]. rewrite (IH Hnd).
  destruct (String.eqb_spec k' k) as [->|Hne].
  - assert (dict_get d k = None) as ->; [|done].
    apply dict_get_None_keys. intros Hin. by apply Hk, list_elem_of_In.
  - by destruct (dict_get d k).
Qed.
End DictUpdate.

Lemma assoc_last_cons {V} (k0 : string) (v : V) l k :
  assoc_last ((k0, v) :: l) k
  = match assoc_last l k with
    | Some v' => Some v'
    | None => if String.eqb k0 k then Some v else None
    end.
Proof. reflexivity. Qed.

Lemma assoc_last_truthy_cons k0 o items k :
  assoc_last (omap Url.truthy_item ((k0, o) :: items)) k
  = match assoc_last (omap Url.truthy_item items) k with
    | Some v => Some v
    | None => if String.eqb k k0 then Url.nonblank o else None
    end.
Proof.
  rewrite (String.eqb_sym k k0).
  set (rest := omap Url.truthy_item items).
  destruct o as [[|a v]|].
  - change (omap Url.truthy_item ((k0, Some "") :: items)) with rest.
    by destruct (assoc_last rest k), (String.eqb k0 k).
  - change (omap Url.truthy_item ((k0, Some (String a v)) :: items))
      with ((k0, String a v) :: rest).
    apply assoc_last_cons.
  - change (omap Url.truthy_item ((k0, None) :: items)) with rest.
    by destruct (assoc_last rest k), (String.eqb k0 k).
Qed.

Lemma utm_params_lookup utm k :
  assoc_last (Url.utm_params utm) k = Url.spec_utm utm k.
Proof.
  unfold Url.utm_params, Url.utm_items, Url.spec_utm.
  rewrite !assoc_last_truthy_cons.
  change (assoc_last (omap Url.truthy_item []) k) with (@None string).
  generalize (Url.nonblank (dict_get utm "source")).
  generalize (Url.nonblank (dict_get utm "medium")).
  generalize (Url.nonblank (dict_get utm "campaign")).
  generalize (Url.nonblank (dict_get utm "content")).
  intros o4 o3 o2 o1.
  destruct (String.eqb_spec k "utm_source") as [->|H1];
    [by destruct o1, o2, o3, o4|].
  destruct (String.eqb_spec k "utm_medium") as [->|H2];
    [by destruct o1, o2, o3, o4|].
  destruct (String.eqb_spec k "utm_campaign") as [->|H3];
    [by destruct o1, o2, o3, o4|].
  destruct (String.eqb_spec k "utm_content") as [->|H4];
    by destruct o1, o2, o3, o4.
Qed.

(** X16: the query parameters that [with_utm] encodes.  Every name occurs
    once, and the value of a name is its value in [extra] when [extra] has
    it, else the component of [utm] for the names [utm_source], [utm_medium],
    [utm_campaign] and [utm_content] when that component is there and not
    empty, else the last value of the name among the fields of the query of
    the URL. *)
Theorem merged_params_spec (unquote : string -> string) parsed_query
    (utm extra : dict string) :
  NoDup (keys (Url.merged_params unquote parsed_query utm extra)) /\
  forall k,
    dict_get (Url.merged_params unquote parsed_query utm extra) k
    = Url.spec_param (Url.parse_qsl unquote parsed_query) utm extra k.
Proof.
  unfold Url.merged_params, dict_of_pairs.
  set (fields := Url.parse_qsl unquote parsed_query).
  assert (Hq : NoDup (keys (dict_update ([] : dict string) fields))).
  { apply dict_update_keys_NoDup. constructor. }
  split.
  - do 3 apply dict_update_keys_NoDup. constructor.
  - intros k. unfold Url.spec_param.
    rewrite !dict_get_update, utm_params_lookup.
    destruct (assoc_last extra k); [done|].
    destruct (Url.spec_utm utm k); [done|].
    rewrite (assoc_last_dict _ k Hq), dict_get_update. simpl.
    by destruct (assoc_last fields k).
Qed.

(* ===================================================================== *)
(** * A second run *)
(* ===================================================================== *)

Lemma path_exists_lookup (fs : filesystem) (p : path) n :
  fs !! p = Some n -> path_exists fs p = true.
Proof.
  intros H. unfold path_exists. destruct p; [done|].
  apply bool_decide_eq_true. rewrite H. eauto.
Qed.

Lemma path_exists_ext (fs1 fs2 : filesystem) (p : path) :
  fs1 !! p = fs2 !! p -> path_exists fs1 p = path_exists fs2 p.
Proof. intros H. unfold path_exists. destruct p; [done|]. by rewrite H. Qed.

(** [ensure_dir] touches only what lies on the way to the path. *)
Lemma ensure_dir_outside (fs : filesystem) (p : path) (fs' : filesystem)
    (q : path) :
  ensure_dir fs p = Ok fs' -> ~ q `prefix_of` p -> fs' !! q = fs !! q.
Proof.
  unfold ensure_dir. intros Hm Hq.
  destruct (fs !! q) as [n|] eqn:Hl.
  - rewrite (mkdir_from_keeps _ _ _ _ q Hm); rewrite Hl; eauto.
  - destruct (mkdir_from_new _ _ _ _ q Hm Hl)
      as [?|(_ & q1 & q2 & _ & -> & ->)]; [done|].
    destruct Hq. by exists q2.
Qed.

Lemma write_text_over (fs : filesystem) (p : path) c content :
  p <> [] -> fs !! p = Some (File c) ->
  (forall q, q <> [] -> q `prefix_of` parent p -> fs !! q = Some Dir) ->
  write_text fs p content = Ok (<[p := File content]> fs).
Proof.
  intros Hp Hf Hd. unfold write_text. destruct p as [|a p]; [done|].
  revert Hf Hd. generalize (a :: p). intros q Hf Hd. rewrite Hf.
  destruct (parent q) as [|b d] eqn:Hpar; [done|].
  by rewrite (Hd (b :: d)).
Qed.

Section SecondRun.
Variable render : filesystem -> path -> store -> dict val -> result string.
Variables (st : store) (context : dict val) (t o : path).
Hypothesis Hto : ~ t `prefix_of` o.
Hypothesis Hot : ~ o `prefix_of` t.

#[local] Abbreviation loop2 := (render_loop render st context t o).
#[local] Abbreviation one2 := (render_one render st context t o).
#[local] Abbreviation out2 := (output_path t o).
#[local] Abbreviation line2 :=
  (fun p => "Wrote " +:+ path_str (output_path t o p)).

(** The outputs and the directories made for them lie apart from the
    templates. *)
Lemma template_apart r :
  ~ o `prefix_of` t ++ r /\ forall y, ~ t ++ r `prefix_of` o ++ y.
Proof.
  split.
  - intros H.
    destruct (prefix_weak_total o t (t ++ r) H (prefix_app_r t t r (reflexivity t)));
      done.
  - intros y H. apply prefix_app_l in H.
    destruct (prefix_weak_total t o (o ++ y) H (prefix_app_r o o y (reflexivity o)));
      done.
Qed.

Lemma out_shape p :
  template_under t p ->
  exists x s, out2 p = o ++ x ++ [s] /\ parent (out2 p) = o ++ x.
Proof.
  intros (rel & Hr & -> & Hs). unfold output_path.
  rewrite drop_app_length. unfold remove_marker.
  eexists _, _. split; [reflexivity|]. unfold parent.
  by rewrite !app_assoc, removelast_last.
Qed.

Lemma out_not_nil p : template_under t p -> out2 p <> [].
Proof.
  intros (x & s & -> & _)%out_shape H.
  apply (f_equal List.length) in H. rewrite !length_app in H.
  simpl in H. lia.
Qed.

Lemma render_one_outside w p w' q :
  template_under t p -> one2 w p = Ok w' ->
  ~ o `prefix_of` q -> (forall y, ~ q `prefix_of` o ++ y) ->
  w_fs w' !! q = w_fs w !! q.
Proof.
  intros Hu H1 Hoq Hqo.
  destruct (render_one_Ok _ _ _ _ _ _ _ _ Hu H1)
    as (output & fs1 & _ & Hm & -> & _).
  destruct (out_shape p Hu) as (x & s & Hout & Hpar).
  rewrite lookup_insert_ne.
  - apply (ensure_dir_outside _ _ _ _ Hm). rewrite Hpar. apply Hqo.
  - intros <-. apply Hoq. rewrite Hout. by exists (x ++ [s]).
Qed.

Lemma render_loop_outside tpls :
  forall w w' q,
    Forall (template_under t) tpls -> loop2 w tpls = Ok w' ->
    ~ o `prefix_of` q -> (forall y, ~ q `prefix_of` o ++ y) ->
    w_fs w' !! q = w_fs w !! q.
Proof.
  induction tpls as [|p tpls IH]; intros w w' q Hall; simpl.
  - by intros [= <-].
  - apply Forall_cons in Hall as [Hu Hall].
    destruct (one2 w p) as [w1|] eqn:H1; [|done]. simpl.
    intros Hl Hoq Hqo.
    rewrite (IH _ _ q Hall Hl Hoq Hqo).
    by apply (render_one_outside w p w1 q).
Qed.

(** After its round the directories above a template's output are there. *)
Lemma render_one_dirs w p w' q :
  template_under t p -> one2 w p = Ok w' ->
  q <> [] -> q `prefix_of` parent (out2 p) -> w_fs w' !! q = Some Dir.
Proof.
  intros Hu H1 Hq [q2 Hpre].
  destruct (render_one_Ok _ _ _ _ _ _ _ _ Hu H1)
    as (output & fs1 & _ & Hm & -> & _).
  destruct (out_shape p Hu) as (x & s & Hout & Hpar).
  rewrite lookup_insert_ne.
  - exact (mkdir_from_made _ _ _ _ q q2 Hm Hpre Hq).
  - intros Heq. rewrite Hpar in Hpre. rewrite <- Heq, Hout in Hpre.
    apply (f_equal List.length) in Hpre. rewrite !length_app in Hpre.
    simpl in Hpre. lia.
Qed.

(** A run of the loop over a file system that holds every output with the
    text its template renders to, and the directories above it, leaves the
    file system as it is. *)
Lemma render_loop_again (fs : filesystem) tpls :
  Forall (fun p =>
            template_under t p /\
            (exists output,
               render (subtree fs t) (drop (List.length t) p) st context
               = Ok output /\
               fs !! out2 p = Some (File (file_text output))) /\
            (forall q, q <> [] -> q `prefix_of` parent (out2 p) ->
                       fs !! q = Some Dir)) tpls ->
  forall out err,
    loop2 (World fs out err) tpls
    = Ok (World fs (out ++ (line2 <$> tpls)) err).
Proof.
  induction 1 as [|p tpls (Hu & (output & Hr & Hf) & Hd) _ IH];
    intros out err; simpl.
  - by rewrite app_nil_r.
  - assert (H1 : one2 (World fs out err) p
                 = Ok (World fs (out ++ [line2 p]) err)).
    { destruct (target_of_template _ o _ Hu) as (rel & Hs & Ht).
      assert (Hrel : drop (List.length t) p = rel).
      { apply strip_prefix_Some in Hs. subst p. apply drop_app_length. }
      unfold render_one. rewrite Hs. simpl. rewrite <- Hrel, Hr. simpl.
      rewrite Hrel, Ht. simpl.
      assert (Hm : ensure_dir fs (parent (out2 p)) = Ok fs).
      { apply mkdir_from_present. intros q1 q2 Heq Hne.
        apply Hd; [done|]. by exists q2. }
      rewrite Hm. simpl.
      rewrite (write_text_over fs (out2 p) _ _ (out_not_nil p Hu) Hf Hd).
      simpl. by rewrite (insert_id _ _ _ Hf). }
    rewrite H1. simpl. rewrite IH. by rewrite <- app_assoc.
Qed.

(** What the loop leaves behind is such a file system. *)
Lemma render_loop_settled tpls w w' :
  Forall (template_under t) tpls -> NoDup (out2 <$> tpls) ->
  loop2 w tpls = Ok w' ->
  Forall (fun p =>
            template_under t p /\
            (exists output,
               render (subtree (w_fs w') t) (drop (List.length t) p) st context
               = Ok output /\
               w_fs w' !! out2 p = Some (File (file_text output))) /\
            (forall q, q <> [] -> q `prefix_of` parent (out2 p) ->
                       w_fs w' !! q = Some Dir)) tpls.
Proof.
  intros Hall Hnd Hl. apply Forall_forall. intros p Hp.
  pose proof (proj1 (Forall_forall _ _) Hall p Hp) as Hu.
  split; [exact Hu|].
  apply list_elem_of_split in Hp as (pre & post & Heq). subst tpls.
  split.
  - destruct (render_loop_written _ _ _ _ _ _ _ _ _ _ Hall Hnd Hl)
      as (w_p & output & Hpre & Hr & Hw).
    exists output. split; [|exact Hw].
    rewrite <- Hr. f_equal. apply subtree_ext. intros r.
    destruct (template_apart r) as [Ha Hb].
    apply Forall_app in Hall as [Hall1 Hall2].
    rewrite (render_loop_outside _ _ _ _ (Forall_app_2 _ _ _ Hall1 Hall2) Hl Ha Hb).
    by rewrite (render_loop_outside _ _ _ _ Hall1 Hpre Ha Hb).
  - intros q Hq Hpre.
    apply render_loop_app in Hl as (wm & _ & Hl). simpl in Hl.
    destruct (one2 wm p) as [wq|] eqn:H1; [|done]. simpl in Hl.
    pose proof (render_one_dirs _ _ _ q Hu H1 Hq Hpre) as Hdir.
    destruct (render_loop_le _ _ _ _ _ _ _ _ Hl) as [Hle _].
    specialize (Hle q). by rewrite Hdir in Hle.
Qed.
End SecondRun.




